(** * go-sonic: the ingest channel ([sonic/ingester.go])

    A shallow embedding of the bulk-ingestion code of the Sonic client:
    the text escaping and chunking done by [Push], the batch partitioner
    [divideIngestBulkRecords], and the workers of [BulkPush] / [BulkPop].

    Conventions.
    - A Go [string] is an immutable sequence of bytes: [list ascii].
    - A Go [int] is a 64-bit two's-complement integer: a [Z] with the
      wrap-around of every addition written out ([wrap64]).
    - A run-time panic (index or slice out of range, division by zero) is the
      result [Panic]; a loop that is cut off by its fuel is [OutOfFuel].
    - Loops that can fail to terminate take an explicit [fuel]. *)

From Stdlib Require Import ZArith NArith List Ascii String Bool Lia.
From Stdlib Require Import Permutation Sorted.
Import ListNotations.
Local Open Scope Z_scope.

Set Implicit Arguments.

(* ================================================================== *)
(** ** Go values *)

Definition gostring := list ascii.

Definition len {A : Type} (l : list A) : Z := Z.of_nat (List.length l).

Definition byteval (b : ascii) : Z := Z.of_N (N_of_ascii b).

Definition MaxInt : Z := 2 ^ 63 - 1.
Definition MinInt : Z := - 2 ^ 63.

(** Two's-complement wrap-around of a 64-bit [int]. *)
Definition wrap64 (z : Z) : Z := (z + 2 ^ 63) mod 2 ^ 64 - 2 ^ 63.

(* ================================================================== *)
(** ** Results of fallible code *)

Inductive result (A : Type) : Type :=
| Ok (a : A)
| Panic
| OutOfFuel.

Arguments Ok {A} a.
Arguments Panic {A}.
Arguments OutOfFuel {A}.

Definition rbind {A B : Type} (m : result A) (f : A -> result B) : result B :=
  match m with
  | Ok a => f a
  | Panic => Panic
  | OutOfFuel => OutOfFuel
  end.

Notation "x <- m ;; k" := (rbind m (fun x => k))
  (at level 61, m at next level, right associativity).

(** [s[i]]: panics outside [0 <= i < len(s)]. *)
Definition index {A : Type} (s : list A) (i : Z) : result A :=
  if i <? 0 then Panic
  else match nth_error s (Z.to_nat i) with
       | Some b => Ok b
       | None => Panic
       end.

(** [s[lo:hi]]: panics unless [0 <= lo <= hi <= len(s)]. *)
Definition slice {A : Type} (s : list A) (lo hi : Z) : result (list A) :=
  if (0 <=? lo) && (lo <=? hi) && (hi <=? len s)
  then Ok (firstn (Z.to_nat (hi - lo)) (skipn (Z.to_nat lo) s))
  else Panic.

(** [s[lo:]] *)
Definition sliceFrom {A : Type} (s : list A) (lo : Z) : result (list A) :=
  slice s lo (len s).

(* ================================================================== *)
(** ** [unicode/utf8] (Go standard library) *)

(** [func RuneStart(b byte) bool { return b&0xC0 != 0x80 }] *)
Definition RuneStart (b : ascii) : bool :=
  negb (Z.land (byteval b) 0xC0 =? 0x80).

(** The classes of the table [first] of the package: what a leading byte
    announces, with the accept range of the second byte. *)
Inductive leadClass : Type :=
| LAscii
| LInvalid
| L2 (lo hi : Z)
| L3 (lo hi : Z)
| L4 (lo hi : Z).

Definition first (b : ascii) : leadClass :=
  let x := byteval b in
  if x <? 0x80 then LAscii
  else if x <? 0xC2 then LInvalid
  else if x <? 0xE0 then L2 0x80 0xBF
  else if x =? 0xE0 then L3 0xA0 0xBF
  else if x <? 0xED then L3 0x80 0xBF
  else if x =? 0xED then L3 0x80 0x9F
  else if x <? 0xF0 then L3 0x80 0xBF
  else if x =? 0xF0 then L4 0x90 0xBF
  else if x <? 0xF4 then L4 0x80 0xBF
  else if x =? 0xF4 then L4 0x80 0x8F
  else LInvalid.

Definition inRange (lo hi : Z) (b : ascii) : bool :=
  (lo <=? byteval b) && (byteval b <=? hi).

(** [utf8.ValidString]: the string is a sequence of well-formed encodings. *)
Fixpoint ValidString (s : gostring) : bool :=
  match s with
  | [] => true
  | b0 :: t =>
    match first b0 with
    | LAscii => ValidString t
    | LInvalid => false
    | L2 lo hi =>
      match t with
      | b1 :: t1 => inRange lo hi b1 && ValidString t1
      | _ => false
      end
    | L3 lo hi =>
      match t with
      | b1 :: b2 :: t2 =>
        inRange lo hi b1 && inRange 0x80 0xBF b2 && ValidString t2
      | _ => false
      end
    | L4 lo hi =>
      match t with
      | b1 :: b2 :: b3 :: t3 =>
        inRange lo hi b1 && inRange 0x80 0xBF b2 && inRange 0x80 0xBF b3
        && ValidString t3
      | _ => false
      end
    end
  end.

(* ================================================================== *)
(** ** [strings.Replace] for a one-byte pattern *)

(** [strings.Replace(s, old, new, -1)] where [old] is a single byte: every
    occurrence of the byte, left to right, is replaced by [new]. *)
Definition Replace1 (s : gostring) (old : ascii) (new : gostring) : gostring :=
  flat_map (fun c => if Ascii.eqb c old then new else [c]) s.

(* ================================================================== *)
(** ** [splitText] *)

(** The inner loop [for !utf8.RuneStart(longString[r]) { r-- }].  It ends
    after at most [r + 1] tests (at [r = -1] the indexing panics), so the
    counter [n] is its measure: [walkBack_total] below. *)
Fixpoint walkBack (n : nat) (longString : gostring) (r : Z) : result Z :=
  b <- index longString r ;;
  if RuneStart b then Ok r
  else match n with
       | O => OutOfFuel
       | S n' => walkBack n' longString (r - 1)
       end.

(** The outer loop
    [for l, r = 0, maxLen; r < len(longString); l, r = r, r+maxLen]. *)
Fixpoint splitLoop (fuel : nat) (longString : gostring) (maxLen : Z)
         (splits : list gostring) (l r : Z) : result (list gostring) :=
  match fuel with
  | O => OutOfFuel
  | S fuel' =>
    if r <? len longString then
      r' <- walkBack (S (Z.to_nat r)) longString r ;;
      chunk <- slice longString l r' ;;
      splitLoop fuel' longString maxLen (splits ++ [chunk]) r'
                (wrap64 (r' + maxLen))
    else
      chunk <- sliceFrom longString l ;;
      Ok (splits ++ [chunk])
  end.

Definition splitText (fuel : nat) (longString : gostring) (maxLen : Z)
  : result (list gostring) :=
  splitLoop fuel longString maxLen [] 0 maxLen.

(* ================================================================== *)
(** ** The escaping of [Push] *)

Definition backslash : ascii := ascii_of_nat 92.
Definition newline : ascii := ascii_of_nat 10.
Definition dquote : ascii := ascii_of_nat 34.
Definition letter_n : ascii := ascii_of_nat 110.

(** The table [patterns] of [Push]: pattern and replacement. *)
Definition patterns : list (ascii * gostring) :=
  [ (backslash, [backslash; backslash]);
    (newline, [backslash; letter_n]);
    (dquote, [backslash; dquote]) ].

(** [for _, v := range patterns { text = strings.Replace(text, ...) }] *)
Definition escape (text : gostring) : gostring :=
  fold_left (fun t v => Replace1 t (fst v) (snd v)) patterns text.

(** What the three replacements do to one byte. *)
Definition escapeByte (c : ascii) : gostring :=
  if Ascii.eqb c backslash then [backslash; backslash]
  else if Ascii.eqb c newline then [backslash; letter_n]
  else if Ascii.eqb c dquote then [backslash; dquote]
  else [c].

(** The decoder of the escaping, as the protocol reads a quoted text: a
    backslash announces an escaped byte, [n] standing for a newline. *)
Fixpoint unescape (s : gostring) : gostring :=
  match s with
  | [] => []
  | c :: t =>
    if Ascii.eqb c backslash then
      match t with
      | d :: t' => (if Ascii.eqb d letter_n then newline else d) :: unescape t'
      | [] => [c]
      end
    else c :: unescape t
  end.

(** The chunks that [Push] sends: [splitText(text, i.cmdMaxBytes/2)] on the
    escaped text.  [cmdMaxBytes] is a field of the driver. Go's [/]
    truncates toward zero. *)
Definition pushChunks (fuel : nat) (cmdMaxBytes : Z) (text : gostring)
  : result (list gostring) :=
  splitText fuel (escape text) (Z.quot cmdMaxBytes 2).

Definition str (s : string) : gostring := list_ascii_of_string s.

(* ================================================================== *)
(** ** Records, errors and the partitioner *)

Record IngestBulkRecord : Type := mkRecord {
  Object : gostring;
  Text : gostring
}.

(** The [error] values the ingest channel meets: the package's [ErrClosed],
    and whatever the transport reports. *)
Inductive error : Type :=
| ErrClosed
| ErrTransport (code : nat).

Record IngestBulkError : Type := mkBulkError {
  ErrObject : gostring;
  Error : error
}.

(** Go's [a / b] on [int]: panics on a zero divisor, truncates toward zero. *)
Definition quot64 (a b : Z) : result Z :=
  if b =? 0 then Panic else Ok (wrap64 (Z.quot a b)).

(** The loop [for i := 0; i < len(records); i += chunkSize] of
    [divideIngestBulkRecords]. *)
Fixpoint divideLoop (A : Type) (fuel : nat) (records : list A) (chunkSize : Z)
         (divided : list (list A)) (i : Z) : result (list (list A)) :=
  match fuel with
  | O => OutOfFuel
  | S fuel' =>
    if i <? len records then
      let e := wrap64 (i + chunkSize) in
      let e := if e >? len records then len records else e in
      part <- slice records i e ;;
      divideLoop fuel' records chunkSize (divided ++ [part])
                 (wrap64 (i + chunkSize))
    else Ok divided
  end.

Definition divideIngestBulkRecords (A : Type) (fuel : nat) (records : list A)
           (parallelRoutines : Z) : result (list (list A)) :=
  chunkSize <- quot64 (wrap64 (wrap64 (len records + parallelRoutines) - 1))
                      parallelRoutines ;;
  divideLoop fuel records chunkSize [] 0.

(** [if parallelRoutines <= 0 { parallelRoutines = 1 }], the first statement
    of [BulkPush] and of [BulkPop]. *)
Definition clampRoutines (parallelRoutines : Z) : Z :=
  if parallelRoutines <=? 0 then 1 else parallelRoutines.

(** [divided] in [BulkPush] and [BulkPop]: one goroutine is started for each
    of its elements ([group.Add(len(divided))]). *)
Definition bulkDivided (fuel : nat) (parallelRoutines : Z)
           (records : list IngestBulkRecord)
  : result (list (list IngestBulkRecord)) :=
  divideIngestBulkRecords fuel records (clampRoutines parallelRoutines).

(* ================================================================== *)
(** ** Connections and workers *)

(** Modelled from the spec: the connection of the driver, which is not part
    of this file of the repository.  The spec gives it
    [write(line) -> Ok | IOError], [read() -> ResponseLine | IOError] and
    [close()], the latter safe on a connection that was never opened.  What a
    [write] or [read] answers is the environment's choice: each worker draws
    the outcomes of its calls, in order, from a [tape] ([None] is a nil
    error; an exhausted tape answers nil).  [cmdMaxBytes] is the driver's
    field, and [nilCall] is what [read] or [write] does on a nil connection
    pointer, which the spec leaves open. *)
Record driver : Type := mkDriver {
  cmdMaxBytes : Z;
  nilCall : result (option error)
}.

(** The state one worker threads through its calls: the outcomes to come,
    the lines written, and the errors it has appended to the shared [errs]
    through [addBulkError], in order. *)
Record world : Type := mkWorld {
  tape : list (option error);
  sent : list gostring;
  errs : list IngestBulkError
}.

Definition IO (A : Type) : Type := world -> result (A * world).

Definition ret {A : Type} (a : A) : IO A := fun w => Ok (a, w).

Definition bind {A B : Type} (m : IO A) (f : A -> IO B) : IO B :=
  fun w => match m w with
           | Ok (a, w') => f a w'
           | Panic => Panic
           | OutOfFuel => OutOfFuel
           end.

Notation "x <-- m ;;; k" := (bind m (fun x => k))
  (at level 61, m at next level, right associativity).
Notation "m >>> k" := (bind m (fun _ => k))
  (at level 61, right associativity).

Definition lift {A : Type} (r : result A) : IO A :=
  fun w => match r with
           | Ok a => Ok (a, w)
           | Panic => Panic
           | OutOfFuel => OutOfFuel
           end.

(** The outcome of the next call on the transport. *)
Definition outcome : IO (option error) :=
  fun w => match tape w with
           | [] => Ok (None, w)
           | o :: t => Ok (o, mkWorld t (sent w) (errs w))
           end.

(** [i.write(line)] and [i.read()]: the calls on the channel's own
    connection, which [Push] uses. *)
Definition write (line : gostring) : IO (option error) :=
  fun w => outcome (mkWorld (tape w) (sent w ++ [line]) (errs w)).

Definition read : IO (option error) := outcome.

(** [conn, _ := newConnection(i.driver)]: [true] is a connection, [false]
    is [conn == nil]. *)
Definition newConnection : IO bool :=
  o <-- outcome ;;;
  ret (match o with None => true | Some _ => false end).

(** [conn.write(line)] and [conn.read()]: the calls on the connection of the
    worker, which is nil when [newConnection] failed. *)
Definition connWrite (d : driver) (conn : bool) (line : gostring)
  : IO (option error) :=
  if conn then write line else lift (nilCall d).

Definition connRead (d : driver) (conn : bool) : IO (option error) :=
  if conn then read else lift (nilCall d).

Definition connClose (conn : bool) : IO unit := ret tt.

(** [fmt.Sprintf("%s %s %s %s \"%s\"", verb, collection, bucket, object, text)] *)
Definition cmdLine (verb collection bucket object text : gostring) : gostring :=
  verb ++ str " " ++ collection ++ str " " ++ bucket ++ str " " ++ object
       ++ str " " ++ [dquote] ++ text ++ [dquote].

Definition push : gostring := str "PUSH".
Definition pop : gostring := str "POP".

(** [addBulkError]: one append to the shared list, under the mutex. *)
Definition addBulkError (record : IngestBulkRecord) (err : error) : IO unit :=
  fun w => Ok (tt, mkWorld (tape w) (sent w)
                           (errs w ++ [mkBulkError (Object record) err])).

(** The loop [for _, chunk := range chunks] of [Push]: the first error ends
    it. *)
Fixpoint pushLoop (collection bucket object : gostring) (chunks : list gostring)
  : IO (option error) :=
  match chunks with
  | [] => ret None
  | chunk :: chunks' =>
    err <-- write (cmdLine push collection bucket object chunk) ;;;
    match err with
    | Some e => ret (Some e)
    | None =>
      err <-- read ;;;
      match err with
      | Some e => ret (Some e)
      | None => pushLoop collection bucket object chunks'
      end
    end
  end.

Definition Push (d : driver) (fuel : nat) (collection bucket object text : gostring)
  : IO (option error) :=
  chunks <-- lift (pushChunks fuel (cmdMaxBytes d) text) ;;;
  pushLoop collection bucket object chunks.

(** [for _, rec := range recs { body }] *)
Fixpoint forEach (A : Type) (recs : list A) (body : A -> IO unit) : IO unit :=
  match recs with
  | [] => ret tt
  | rec :: recs' => body rec >>> forEach recs' body
  end.

(** The body of the goroutine of [BulkPush], for one record. *)
Definition bulkPushRecord (d : driver) (fuel : nat) (collection bucket : gostring)
           (conn : bool) (rec : IngestBulkRecord) : IO unit :=
  (if conn then ret tt else addBulkError rec ErrClosed) >>>
  err <-- Push d fuel collection bucket (Object rec) (Text rec) ;;;
  match err with
  | Some e => addBulkError rec e
  | None =>
    err <-- connRead d conn ;;;
    match err with
    | Some e => addBulkError rec e
    | None => ret tt
    end
  end.

(** The goroutine of [BulkPush]. *)
Definition bulkPushWorker (d : driver) (fuel : nat) (collection bucket : gostring)
           (recs : list IngestBulkRecord) : IO unit :=
  conn <-- newConnection ;;;
  forEach recs (bulkPushRecord d fuel collection bucket conn) >>>
  connClose conn.

(** The body of the goroutine of [BulkPop], for one record. *)
Definition bulkPopRecord (d : driver) (collection bucket : gostring)
           (conn : bool) (rec : IngestBulkRecord) : IO unit :=
  (if conn then ret tt else addBulkError rec ErrClosed) >>>
  err <-- connWrite d conn (cmdLine pop collection bucket (Object rec) (Text rec)) ;;;
  match err with
  | Some e => addBulkError rec e
  | None =>
    err <-- connRead d conn ;;;
    match err with
    | Some e => addBulkError rec e
    | None => ret tt
    end
  end.

(** The goroutine of [BulkPop]. *)
Definition bulkPopWorker (d : driver) (collection bucket : gostring)
           (recs : list IngestBulkRecord) : IO unit :=
  conn <-- newConnection ;;;
  forEach recs (bulkPopRecord d collection bucket conn) >>>
  connClose conn.

(** One goroutine per element of [divided]; worker [k] draws from the
    [k]-th tape.  The result is what each worker appended, in its own
    order.  A panic in a goroutine ends the program. *)
Fixpoint spawn (A : Type) (worker : list A -> IO unit)
         (tapes : list (list (option error))) (divided : list (list A))
  : result (list (list IngestBulkError)) :=
  match divided with
  | [] => Ok []
  | recs :: divided' =>
    out <- worker recs (mkWorld (hd [] tapes) [] []) ;;
    logs <- spawn worker (tl tapes) divided' ;;
    Ok (errs (snd out) :: logs)
  end.

Fixpoint setNth (A : Type) (k : nat) (x : A) (l : list A) : list A :=
  match l, k with
  | [], _ => []
  | _ :: t, O => x :: t
  | y :: t, S k' => y :: setNth k' x t
  end.

(** The shared [errs] after [group.Wait()]: the workers' appends, each an
    atomic step under [errMutex], interleaved in the order [sched] in which
    the workers got the mutex; what the schedule leaves is taken worker by
    worker, since the caller waits for all of them. *)
Fixpoint interleave (A : Type) (sched : list nat) (logs : list (list A))
  : list A :=
  match sched with
  | [] => List.concat logs
  | k :: sched' =>
    match nth_error logs k with
    | Some (e :: rest) => e :: interleave sched' (setNth k rest logs)
    | _ => interleave sched' logs
    end
  end.

Definition BulkPush (d : driver) (fuel : nat) (sched : list nat)
           (tapes : list (list (option error)))
           (collection bucket : gostring) (parallelRoutines : Z)
           (records : list IngestBulkRecord) : result (list IngestBulkError) :=
  divided <- bulkDivided fuel parallelRoutines records ;;
  logs <- spawn (bulkPushWorker d fuel collection bucket) tapes divided ;;
  Ok (interleave sched logs).

Definition BulkPop (d : driver) (fuel : nat) (sched : list nat)
           (tapes : list (list (option error)))
           (collection bucket : gostring) (parallelRoutines : Z)
           (records : list IngestBulkRecord) : result (list IngestBulkError) :=
  divided <- bulkDivided fuel parallelRoutines records ;;
  logs <- spawn (bulkPopWorker d collection bucket) tapes divided ;;
  Ok (interleave sched logs).

(* ================================================================== *)
(** ** Predicates and sample data of the statements *)

Definition valid (s : gostring) : Prop := ValidString s = true.

(** A position of a string is a boundary when the byte there, if any,
    starts a character. *)
Definition startOK (s : gostring) : Prop :=
  match s with
  | [] => True
  | b :: _ => RuneStart b = true
  end.

Definition lastChunk (chunks : list gostring) : gostring := last chunks [].

(** The left index [l] at which each chunk starts, the first one at [l]. *)
Fixpoint offsets (l : Z) (chunks : list gostring) : list Z :=
  match chunks with
  | [] => []
  | c :: chunks' => l :: offsets (l + len c) chunks'
  end.

(** The ceiling of [n / p], as [divideIngestBulkRecords] computes it. *)
Definition chunkSizeOf (n p : Z) : Z := (n + p - 1) / p.

(** Five continuation bytes: not UTF-8. *)
Definition cont5 : gostring := repeat (ascii_of_nat 128) 5.

(** U+1F600 twice: two characters of four bytes each. *)
Definition grin : gostring :=
  [ascii_of_nat 240; ascii_of_nat 159; ascii_of_nat 152; ascii_of_nat 128].
Definition grin2 : gostring := grin ++ grin.

(** The bytes of: a, a double quote, e-acute (two bytes), a backslash, a
    newline, b, c. *)
Definition sample : gostring :=
  str "a" ++ [dquote; ascii_of_nat 195; ascii_of_nat 169; backslash; newline]
      ++ str "bc".

Definition recA : IngestBulkRecord := mkRecord (str "A") (str "x").
Definition recB : IngestBulkRecord := mkRecord (str "B") (str "y").
Definition recC : IngestBulkRecord := mkRecord (str "C") (str "z").
Definition recD : IngestBulkRecord := mkRecord (str "D") (str "w").

(* ================================================================== *)
(** ** The other commands of the channel, and predicates on texts *)

(** The bytes the escaping of [Push] rewrites. *)
Definition isSpecial (c : ascii) : bool :=
  Ascii.eqb c backslash || Ascii.eqb c newline || Ascii.eqb c dquote.

Definition countSpecial (text : gostring) : Z := len (filter isSpecial text).


(** How many chunks a text of [n] bytes, all of them starting a character,
    is split into. *)
Definition chunkCount (n maxLen : Z) : Z :=
  Z.max 1 ((n + maxLen - 1) / maxLen).

(** [Pop]: one line, the text as it is, then the acknowledgement. *)
Definition Pop (collection bucket object text : gostring) : IO (option error) :=
  err <-- write (cmdLine pop collection bucket object text) ;;;
  match err with
  | Some e => ret (Some e)
  | None =>
    err <-- read ;;;
    match err with
    | Some e => ret (Some e)
    | None => ret None
    end
  end.

(** The errors of [Count]: those of the transport and those of
    [strconv.Atoi]. *)
Inductive countError : Type :=
| CountTransport (e : error)
| ErrSyntax
| ErrRange.

Definition digitVal (c : ascii) : option Z :=
  let x := byteval c in
  if (48 <=? x) && (x <=? 57) then Some (x - 48) else None.

(** What the scan of the digits ends on. *)
Inductive scan : Type :=
| Digits (n : Z)
| BadSyntax
| OutOfRange.

Definition MaxUint : Z := 2 ^ 64 - 1.

(** The loop of [strconv.ParseUint] in base 10, most significant digit
    first: a byte that is no digit ends it on a syntax error, and a value
    that leaves [uint64] ends it on a range error, at once, whatever
    follows. *)
Fixpoint parseUint (acc : Z) (s : gostring) : scan :=
  match s with
  | [] => Digits acc
  | c :: t =>
    match digitVal c with
    | Some d =>
      if MaxUint <? acc * 10 + d then OutOfRange
      else parseUint (acc * 10 + d) t
    | None => BadSyntax
    end
  end.

Definition plusSign : ascii := ascii_of_nat 43.
Definition minusSign : ascii := ascii_of_nat 45.

(** [strconv.Atoi] (Go standard library), that is [ParseInt(s, 10, 0)]: an
    optional sign and at least one decimal digit; a syntax error gives [0],
    a value outside [int] gives the nearest bound and a range error. *)
Definition Atoi (s : gostring) : Z * option countError :=
  match s with
  | [] => (0, Some ErrSyntax)
  | c :: t =>
    let neg := Ascii.eqb c minusSign in
    let body := if Ascii.eqb c plusSign || Ascii.eqb c minusSign then t else s in
    match body with
    | [] => (0, Some ErrSyntax)
    | _ :: _ =>
      match parseUint 0 body with
      | BadSyntax => (0, Some ErrSyntax)
      | OutOfRange => (if neg then MinInt else MaxInt, Some ErrRange)
      | Digits un =>
        if negb neg && (2 ^ 63 <=? un) then (MaxInt, Some ErrRange)
        else if neg && (2 ^ 63 <? un) then (MinInt, Some ErrRange)
        else (if neg then - un else un, None)
      end
    end
  end.

(** [Count], given what [i.write] returns and what [i.read] returns: the
    error of the write, then the error of the read, then
    [strconv.Atoi(r[7:])]. *)
Definition Count (written : option error) (r : gostring) (readErr : option error)
  : result (Z * option countError) :=
  match written with
  | Some e => Ok (0, Some (CountTransport e))
  | None =>
    match readErr with
    | Some e => Ok (0, Some (CountTransport e))
    | None =>
      tail <- sliceFrom r 7 ;;
      Ok (Atoi tail)
    end
  end.

(** The decimal numeral of a natural number, as the server prints a count;
    [fuel] bounds the number of digits. *)
Fixpoint decimal (fuel : nat) (n : Z) : gostring :=
  match fuel with
  | O => []
  | S fuel' =>
    (if n <? 10 then [] else decimal fuel' (n / 10))
      ++ [ascii_of_nat (Z.to_nat (48 + n mod 10))]
  end.

(** A tape on which every call succeeds. *)
Definition allNil (t : list (option error)) : Prop :=
  Forall (fun o => o = None) t.

(** Whether [newConnection] gives a connection to the worker that draws
    from the tape. *)
Definition connects (t : list (option error)) : bool :=
  match t with
  | Some _ :: _ => false
  | _ => true
  end.


(* ================================================================== *)
(** ** Predicates on what the workers append *)

(** How many errors one record can add to the list: one with a connection,
    two without. *)
Definition perRecord (conn : bool) : nat := if conn then 1%nat else 2%nat.

(** What one record adds to the errors of its worker: at most [k] errors,
    all on the object of the record. *)
Definition recordLog (k : nat) (rec : IngestBulkRecord) (w w' : world) : Prop :=
  exists log,
    errs w' = errs w ++ log /\ (List.length log <= k)%nat /\
    Forall (fun e => ErrObject e = Object rec) log.

(** What a worker adds for its partition: at most [k] errors a record, all
    on objects of the partition. *)
Definition workerLog (k : nat) (recs : list IngestBulkRecord)
           (log : list IngestBulkError) : Prop :=
  (List.length log <= k * List.length recs)%nat /\
  Forall (fun e => In (ErrObject e) (map Object recs)) log.

(** A worker whose appends are bounded as above, by its connection. *)
Definition workerSpec (worker : list IngestBulkRecord -> IO unit) : Prop :=
  forall (t : list (option error)) (recs : list IngestBulkRecord)
         (out : unit * world),
    worker recs (mkWorld t [] []) = Ok out ->
    workerLog (perRecord (connects t)) recs (errs (snd out)).

(** The body of a worker adds no error for the record when every call on
    the transport succeeds. *)
Definition quiet (body : IngestBulkRecord -> IO unit) (rec : IngestBulkRecord)
  : Prop :=
  forall w : world,
    allNil (tape w) ->
    exists w', body rec w = Ok (tt, w') /\ errs w' = errs w /\ allNil (tape w').

(* ================================================================== *)
(** * Theorems *)

(** ** Integers, indexing and slices *)

Lemma wrap64_id (z : Z) : MinInt <= z <= MaxInt -> wrap64 z = z.
Proof.
  unfold wrap64, MinInt, MaxInt. intros H.
  rewrite Z.mod_small; lia.
Qed.

Lemma len_nonneg (A : Type) (l : list A) : 0 <= len l.
Proof. unfold len. lia. Qed.

Lemma len_app (A : Type) (l1 l2 : list A) : len (l1 ++ l2) = len l1 + len l2.
Proof. unfold len. rewrite length_app. lia. Qed.

Lemma len_cons (A : Type) (x : A) (l : list A) : len (x :: l) = len l + 1.
Proof. unfold len. simpl. lia. Qed.

Lemma index_Ok (A : Type) (s : list A) (i : Z) (b : A) :
  index s i = Ok b <-> 0 <= i /\ nth_error s (Z.to_nat i) = Some b.
Proof.
  unfold index. destruct (Z.ltb_spec i 0).
  - split; [discriminate | lia].
  - destruct (nth_error s (Z.to_nat i)); split; intros H0;
      try discriminate; try (inversion H0; subst; auto).
    + destruct H0 as [_ H0]. inversion H0. reflexivity.
    + destruct H0 as [_ H0]. discriminate.
Qed.

Lemma index_app_r (A : Type) (pre s : list A) (j : Z) :
  0 <= j -> index (pre ++ s) (len pre + j) = index s j.
Proof.
  intros Hj. unfold index, len.
  destruct (Z.ltb_spec (Z.of_nat (List.length pre) + j) 0); [lia|].
  destruct (Z.ltb_spec j 0); [lia|].
  replace (Z.to_nat (Z.of_nat (List.length pre) + j))
    with (List.length pre + Z.to_nat j)%nat by lia.
  rewrite nth_error_app2 by lia.
  replace (List.length pre + Z.to_nat j - List.length pre)%nat
    with (Z.to_nat j) by lia.
  reflexivity.
Qed.

Lemma slice_Ok (A : Type) (s : list A) (lo hi : Z) (c : list A) :
  slice s lo hi = Ok c <->
  0 <= lo <= hi /\ hi <= len s /\
  c = firstn (Z.to_nat (hi - lo)) (skipn (Z.to_nat lo) s).
Proof.
  unfold slice.
  destruct (Z.leb_spec 0 lo); destruct (Z.leb_spec lo hi);
    destruct (Z.leb_spec hi (len s)); simpl;
    split; intros H2; try discriminate; try lia.
  - inversion H2. repeat split; auto.
  - destruct H2 as (_ & _ & ->). reflexivity.
Qed.

Lemma slice_app_skipn (A : Type) (s : list A) (lo hi : Z) (c : list A) :
  slice s lo hi = Ok c ->
  c ++ skipn (Z.to_nat hi) s = skipn (Z.to_nat lo) s /\ len c = hi - lo.
Proof.
  intros H. apply slice_Ok in H. destruct H as (H1 & H2 & ->).
  split.
  - replace (Z.to_nat hi) with (Z.to_nat (hi - lo) + Z.to_nat lo)%nat by lia.
    rewrite <- skipn_skipn. apply firstn_skipn.
  - unfold len in *. rewrite length_firstn, length_skipn. lia.
Qed.

(** ** UTF-8 *)

Lemma RuneStart_inRange (b : ascii) :
  RuneStart b = negb (inRange 0x80 0xBF b).
Proof. destruct b as [[] [] [] [] [] [] [] []]; reflexivity. Qed.

Lemma first_ranges (b : ascii) :
  match first b with
  | LAscii => byteval b < 0x80
  | LInvalid => True
  | L2 lo hi | L3 lo hi | L4 lo hi => 0xC2 <= byteval b /\ 0x80 <= lo /\ hi <= 0xBF
  end.
Proof.
  unfold first. cbv zeta.
  repeat match goal with
         | |- context [ ?x <? ?y ] => destruct (Z.ltb_spec x y)
         | |- context [ ?x =? ?y ] => destruct (Z.eqb_spec x y)
         end; lia.
Qed.

Lemma inRange_cont (lo hi : Z) (b : ascii) :
  0x80 <= lo -> hi <= 0xBF -> inRange lo hi b = true -> RuneStart b = false.
Proof.
  intros Hlo Hhi H. rewrite RuneStart_inRange.
  unfold inRange in *. apply andb_true_iff in H. destruct H as [H1 H2].
  apply Z.leb_le in H1, H2.
  apply negb_false_iff. apply andb_true_iff. split; apply Z.leb_le; lia.
Qed.

Lemma first_lead (b : ascii) : first b <> LInvalid -> RuneStart b = true.
Proof.
  intros H. rewrite RuneStart_inRange. apply negb_true_iff.
  unfold inRange. apply andb_false_iff.
  revert H. unfold first. cbv zeta.
  repeat match goal with
         | |- context [ ?x <? ?y ] => destruct (Z.ltb_spec x y)
         | |- context [ ?x =? ?y ] => destruct (Z.eqb_spec x y)
         end; intros Hne; try congruence;
    try (left; apply Z.leb_gt; lia); try (right; apply Z.leb_gt; lia).
Qed.

Ltac split_andb :=
  repeat match goal with
         | H : _ && _ = true |- _ =>
           apply andb_true_iff in H; destruct H
         end.

Ltac solve_andb :=
  repeat match goal with
         | H : ?x = true |- context [ ?x ] => rewrite H
         end; reflexivity.

Ltac cont_false :=
  match goal with
  | Hr : inRange ?lo ?hi ?b = true |- RuneStart ?b = false =>
    apply (@inRange_cont lo hi b); [assumption || lia | assumption || lia | exact Hr]
  end.

Ltac cont_absurd :=
  match goal with
  | Hr : inRange ?lo ?hi ?b = true, Hs : RuneStart ?b = true |- _ =>
    rewrite (@inRange_cont lo hi b) in Hs by (assumption || lia);
    discriminate Hs
  end.

(** Cutting a valid string at a boundary leaves two valid strings. *)
Lemma ValidString_split_aux (n : nat) :
  forall a b : gostring,
    (List.length a <= n)%nat ->
    valid (a ++ b) -> startOK b -> valid a /\ valid b.
Proof.
  unfold valid.
  induction n as [|n IH]; intros a b Hn Hv Hb.
  - destruct a; [auto | simpl in Hn; lia].
  - destruct a as [|b0 a]; [auto|].
    simpl in Hv, Hn. simpl ValidString at 1.
    pose proof (first_ranges b0) as Hr.
    destruct (first b0) as [| |lo hi|lo hi|lo hi].
    + apply IH; auto; lia.
    + discriminate.
    + destruct Hr as (_ & Hlo & Hhi).
      destruct a as [|b1 a]; simpl in Hv.
      * destruct b as [|b1 b]; [discriminate|]. simpl in Hb.
        split_andb. cont_absurd.
      * split_andb. simpl in Hn.
        destruct (IH a b) as [Ha Hb']; auto; try lia.
        rewrite Ha. split; auto. solve_andb.
    + destruct Hr as (_ & Hlo & Hhi).
      destruct a as [|b1 [|b2 a]]; simpl in Hv.
      * destruct b as [|b1 [|b2 b]]; try discriminate. simpl in Hb.
        split_andb. cont_absurd.
      * destruct b as [|b2 b]; try discriminate. simpl in Hb.
        split_andb. cont_absurd.
      * split_andb. simpl in Hn.
        destruct (IH a b) as [Ha Hb']; auto; try lia.
        rewrite Ha. split; auto. solve_andb.
    + destruct Hr as (_ & Hlo & Hhi).
      destruct a as [|b1 [|b2 [|b3 a]]]; simpl in Hv.
      * destruct b as [|b1 [|b2 [|b3 b]]]; try discriminate. simpl in Hb.
        split_andb. cont_absurd.
      * destruct b as [|b2 [|b3 b]]; try discriminate. simpl in Hb.
        split_andb. cont_absurd.
      * destruct b as [|b3 b]; try discriminate. simpl in Hb.
        split_andb. cont_absurd.
      * split_andb. simpl in Hn.
        destruct (IH a b) as [Ha Hb']; auto; try lia.
        rewrite Ha. split; auto. solve_andb.
Qed.

Lemma ValidString_split (a b : gostring) :
  valid (a ++ b) -> startOK b -> valid a /\ valid b.
Proof. apply (@ValidString_split_aux (List.length a)). lia. Qed.

(** ** The backward walk *)

Lemma walkBack_Ok (n : nat) (s : gostring) :
  forall r r', walkBack n s r = Ok r' ->
    r' <= r /\ r - Z.of_nat n <= r' /\
    exists b, index s r' = Ok b /\ RuneStart b = true.
Proof.
  induction n as [|n IH]; intros r r' H; simpl in H;
    destruct (index s r) as [b| |] eqn:Hi; simpl in H; try discriminate;
    destruct (RuneStart b) eqn:Hb; try discriminate.
  - inversion H; subst. repeat split; try lia. eauto.
  - inversion H; subst. repeat split; try lia. eauto.
  - apply IH in H. destruct H as (H1 & H2 & H3). repeat split; auto; lia.
Qed.

(** The counter of the inner loop is a measure: started with [r + 1] it
    never runs out. *)
Lemma walkBack_total (n : nat) (s : gostring) :
  forall r, r < Z.of_nat n -> walkBack n s r <> OutOfFuel.
Proof.
  induction n as [|n IH]; intros r Hr; simpl.
  - unfold index. destruct (Z.ltb_spec r 0); [discriminate | lia].
  - destruct (index s r) as [b| |] eqn:Hi; simpl; try discriminate.
    + destruct (RuneStart b); [discriminate|]. apply IH. lia.
    + unfold index in Hi. destruct (r <? 0); [discriminate|].
      destruct (nth_error s (Z.to_nat r)); discriminate.
Qed.

Lemma walkBack_fuel (n : nat) (s : gostring) :
  forall r r' m, walkBack n s r = Ok r' ->
    (Z.to_nat (r - r') <= m)%nat -> walkBack m s r = Ok r'.
Proof.
  induction n as [|n IH]; intros r r' m H Hm; simpl in H;
    destruct (index s r) as [b| |] eqn:Hi; simpl in H; try discriminate;
    destruct (RuneStart b) eqn:Hb; try discriminate.
  - inversion H; subst. destruct m; simpl; rewrite Hi; simpl; rewrite Hb; auto.
  - inversion H; subst. destruct m; simpl; rewrite Hi; simpl; rewrite Hb; auto.
  - pose proof (walkBack_Ok _ _ _ H) as (H1 & _).
    destruct m as [|m]; [lia|]. simpl. rewrite Hi. simpl. rewrite Hb.
    apply (IH _ _ _ H). lia.
Qed.

Lemma walkBack_stop (n : nat) (s : gostring) (r : Z) (b : ascii) :
  index s r = Ok b -> RuneStart b = true -> walkBack n s r = Ok r.
Proof. intros Hi Hb. destruct n; simpl; rewrite Hi; simpl; rewrite Hb; auto. Qed.

Lemma walkBack_step (n : nat) (s : gostring) (r : Z) (b : ascii) :
  index s (r + 1) = Ok b -> RuneStart b = false ->
  walkBack (S n) s (r + 1) = walkBack n s r.
Proof.
  intros Hi Hb. simpl. rewrite Hi. simpl. rewrite Hb.
  replace (r + 1 - 1) with r by lia. reflexivity.
Qed.

Section Walk.
Variables (pre t : gostring) (b0 b1 b2 b3 : ascii).
Hypothesis Hb0 : RuneStart b0 = true.

Lemma walk0 (n : nat) :
    walkBack n (pre ++ b0 :: t) (len pre + 0) = Ok (len pre + 0).
Proof.
    apply walkBack_stop with (b := b0); auto.
    rewrite index_app_r by lia. reflexivity.
Qed.

Lemma walk1 (n : nat) :
    RuneStart b1 = false ->
    walkBack (S n) (pre ++ b0 :: b1 :: t) (len pre + 0 + 1) = Ok (len pre + 0).
Proof.
    intros H1. rewrite walkBack_step with (b := b1); auto.
    - apply walkBack_stop with (b := b0); auto.
      rewrite index_app_r by lia. reflexivity.
    - rewrite <- Z.add_assoc. rewrite index_app_r by lia. reflexivity.
Qed.

Lemma walk2 (n : nat) :
    RuneStart b1 = false -> RuneStart b2 = false ->
    walkBack (S (S n)) (pre ++ b0 :: b1 :: b2 :: t) (len pre + 0 + 1 + 1)
    = Ok (len pre + 0).
Proof.
    intros H1 H2. rewrite walkBack_step with (b := b2); auto.
    - rewrite walkBack_step with (b := b1); auto.
      + apply walkBack_stop with (b := b0); auto.
        rewrite index_app_r by lia. reflexivity.
      + rewrite <- Z.add_assoc. rewrite index_app_r by lia. reflexivity.
    - rewrite <- !Z.add_assoc. rewrite index_app_r by lia. reflexivity.
Qed.

Lemma walk3 (n : nat) :
    RuneStart b1 = false -> RuneStart b2 = false -> RuneStart b3 = false ->
    walkBack (S (S (S n))) (pre ++ b0 :: b1 :: b2 :: b3 :: t)
             (len pre + 0 + 1 + 1 + 1)
    = Ok (len pre + 0).
Proof.
    intros H1 H2 H3. rewrite walkBack_step with (b := b3); auto.
    - rewrite walkBack_step with (b := b2); auto.
      + rewrite walkBack_step with (b := b1); auto.
        * apply walkBack_stop with (b := b0); auto.
          rewrite index_app_r by lia. reflexivity.
        * rewrite <- Z.add_assoc. rewrite index_app_r by lia. reflexivity.
      + rewrite <- !Z.add_assoc. rewrite index_app_r by lia. reflexivity.
    - rewrite <- !Z.add_assoc. rewrite index_app_r by lia. reflexivity.
Qed.
End Walk.

(** In a valid string the walk from any index ends within three steps,
    inside the string. *)
Lemma walkBack_valid_aux (n : nat) :
  forall (s pre : gostring) (j : nat),
    (List.length s <= n)%nat -> valid s -> (j < List.length s)%nat ->
    exists r', walkBack 3 (pre ++ s) (len pre + Z.of_nat j) = Ok r' /\
               len pre <= r'.
Proof.
  unfold valid.
  induction n as [|n IH]; intros s pre j Hn Hv Hj.
  - lia.
  - destruct s as [|b0 s]; [simpl in Hj; lia|].
    simpl in Hv, Hn.
    assert (Hnext : forall (k : nat) (mid t : gostring),
               s = mid ++ t -> List.length mid = k -> valid t ->
               (S k <= j)%nat ->
               exists r', walkBack 3 (pre ++ b0 :: s) (len pre + Z.of_nat j) = Ok r'
                          /\ len pre <= r').
    { intros k mid t -> Hk Ht Hkj.
      destruct (IH t (pre ++ b0 :: mid) (j - S k)%nat) as (r' & Hw & Hr').
      - rewrite length_app in Hn. lia.
      - exact Ht.
      - simpl in Hj. rewrite length_app in Hj. lia.
      - exists r'. split.
        + rewrite <- Hw. f_equal.
          * rewrite <- app_assoc. reflexivity.
          * rewrite len_app, len_cons. unfold len. lia.
        + rewrite len_app in Hr'. pose proof (len_nonneg (b0 :: mid)). lia. }
    assert (Hb0 : first b0 <> LInvalid) by (intros E; rewrite E in Hv; discriminate).
    apply first_lead in Hb0.
    pose proof (first_ranges b0) as Hr.
    destruct (first b0) as [| |lo hi|lo hi|lo hi].
    + destruct j as [|j].
      * exists (len pre + 0). split; [apply walk0; auto | lia].
      * apply (Hnext 0%nat [] s); auto; lia.
    + discriminate.
    + destruct Hr as (_ & Hlo & Hhi).
      destruct s as [|b1 s]; [discriminate|]. split_andb.
      destruct j as [|[|j]].
      * exists (len pre + 0). split; [apply walk0; auto | lia].
      * exists (len pre + 0). split; [|lia].
        replace (len pre + Z.of_nat 1) with (len pre + 0 + 1) by lia.
        apply (@walk1 pre s b0 b1 Hb0 2). cont_false.
      * apply (Hnext 1%nat [b1] s); auto; lia.
    + destruct Hr as (_ & Hlo & Hhi).
      destruct s as [|b1 [|b2 s]]; try discriminate. split_andb.
      destruct j as [|[|[|j]]].
      * exists (len pre + 0). split; [apply walk0; auto | lia].
      * exists (len pre + 0). split; [|lia].
        replace (len pre + Z.of_nat 1) with (len pre + 0 + 1) by lia.
        apply (@walk1 pre (b2 :: s) b0 b1 Hb0 2). cont_false.
      * exists (len pre + 0). split; [|lia].
        replace (len pre + Z.of_nat 2) with (len pre + 0 + 1 + 1) by lia.
        apply (@walk2 pre s b0 b1 b2 Hb0 1);
          cont_false.
      * apply (Hnext 2%nat [b1; b2] s); auto; lia.
    + destruct Hr as (_ & Hlo & Hhi).
      destruct s as [|b1 [|b2 [|b3 s]]]; try discriminate. split_andb.
      destruct j as [|[|[|[|j]]]].
      * exists (len pre + 0). split; [apply walk0; auto | lia].
      * exists (len pre + 0). split; [|lia].
        replace (len pre + Z.of_nat 1) with (len pre + 0 + 1) by lia.
        apply (@walk1 pre (b2 :: b3 :: s) b0 b1 Hb0 2). cont_false.
      * exists (len pre + 0). split; [|lia].
        replace (len pre + Z.of_nat 2) with (len pre + 0 + 1 + 1) by lia.
        apply (@walk2 pre (b3 :: s) b0 b1 b2 Hb0 1);
          cont_false.
      * exists (len pre + 0). split; [|lia].
        replace (len pre + Z.of_nat 3) with (len pre + 0 + 1 + 1 + 1) by lia.
        apply (@walk3 pre s b0 b1 b2 b3 Hb0 0);
          cont_false.
      * apply (Hnext 3%nat [b1; b2; b3] s); auto; lia.
Qed.

(** The backward walk in a valid string: it stays inside the string, moves
    back at most three bytes and stops on a byte that starts a character. *)
Lemma walkBack_valid (s : gostring) (r : Z) :
  valid s -> 0 <= r < len s ->
  exists r', walkBack (S (Z.to_nat r)) s r = Ok r' /\
             0 <= r' /\ r - 3 <= r' <= r /\
             exists b, index s r' = Ok b /\ RuneStart b = true.
Proof.
  intros Hv Hr.
  destruct (@walkBack_valid_aux (List.length s) s [] (Z.to_nat r)) as (r' & Hw & Hr');
    auto; try (unfold len in Hr; lia).
  change ([] ++ s) with s in Hw. change (len (@nil ascii)) with 0 in *.
  replace (0 + Z.of_nat (Z.to_nat r)) with r in Hw by lia.
  pose proof (walkBack_Ok _ _ _ Hw) as (H1 & H2 & H3).
  exists r'. split; [|repeat split; auto; lia].
  apply (walkBack_fuel _ _ _ Hw). lia.
Qed.

(** ** [splitText] *)

Lemma index_skipn (A : Type) (s : list A) (i : Z) (b : A) :
  index s i = Ok b -> exists t, skipn (Z.to_nat i) s = b :: t.
Proof.
  intros H. apply index_Ok in H. destruct H as [_ H].
  apply nth_error_split in H. destruct H as (l1 & l2 & -> & Hl).
  exists l2. rewrite <- Hl.
  rewrite skipn_app, skipn_all, Nat.sub_diag. reflexivity.
Qed.

Lemma sliceFrom_Ok (A : Type) (s : list A) (l : Z) (c : list A) :
  sliceFrom s l = Ok c -> 0 <= l <= len s /\ c = skipn (Z.to_nat l) s.
Proof.
  unfold sliceFrom. intros H. apply slice_Ok in H.
  destruct H as (H1 & H2 & ->). split; [lia|].
  apply firstn_all2. rewrite length_skipn. unfold len. lia.
Qed.

Lemma rbind_Ok (A B : Type) (m : result A) (f : A -> result B) (b : B) :
  rbind m f = Ok b -> exists a, m = Ok a /\ f a = Ok b.
Proof. destruct m; simpl; intros H; try discriminate. eauto. Qed.

Lemma splitLoop_S (fuel : nat) (s : gostring) (maxLen : Z)
      (splits : list gostring) (l r : Z) :
  splitLoop (S fuel) s maxLen splits l r =
  if r <? len s then
    r' <- walkBack (S (Z.to_nat r)) s r ;;
    chunk <- slice s l r' ;;
    splitLoop fuel s maxLen (splits ++ [chunk]) r' (wrap64 (r' + maxLen))
  else
    chunk <- sliceFrom s l ;;
    Ok (splits ++ [chunk]).
Proof. reflexivity. Qed.

(** Whatever [splitText] returns re-joins to the text, and cuts a valid text
    into valid chunks. *)
Lemma splitLoop_sound (fuel : nat) (s : gostring) (maxLen : Z) :
  forall (splits : list gostring) (l r : Z) (out : list gostring),
    splitLoop fuel s maxLen splits l r = Ok out ->
    exists chunks,
      out = splits ++ chunks /\
      0 <= l <= len s /\
      List.concat chunks = skipn (Z.to_nat l) s /\
      (valid (skipn (Z.to_nat l) s) -> Forall valid chunks).
Proof.
  induction fuel as [|fuel IH]; intros splits l r out H;
    [discriminate|].
  rewrite splitLoop_S in H. destruct (r <? len s).
  - apply rbind_Ok in H. destruct H as (r' & Hw & H).
    apply rbind_Ok in H. destruct H as (chunk & Hs & H).
    apply IH in H. destruct H as (chunks & -> & Hr' & Hc & Hv).
    pose proof (slice_app_skipn _ _ _ Hs) as [Happ _].
    apply slice_Ok in Hs. destruct Hs as (Hl & Hr & Hchunk).
    exists (chunk :: chunks). repeat split; try lia.
    + rewrite <- app_assoc. reflexivity.
    + simpl. rewrite Hc. exact Happ.
    + intros Hvl. rewrite <- Happ in Hvl.
      apply walkBack_Ok in Hw. destruct Hw as (_ & _ & b & Hb & Hrs).
      apply index_skipn in Hb. destruct Hb as [t Ht].
      apply ValidString_split in Hvl.
      * destruct Hvl. constructor; auto.
      * rewrite Ht. exact Hrs.
  - apply rbind_Ok in H. destruct H as (chunk & Hs & H).
    inversion H; subst out. apply sliceFrom_Ok in Hs. destruct Hs as [Hl ->].
    exists [skipn (Z.to_nat l) s]. repeat split; try lia.
    + simpl. apply app_nil_r.
    + intros Hv. constructor; auto.
Qed.

(** On a valid text, with [maxLen >= 4], the loop ends, without a panic. *)
Lemma splitLoop_total (fuel : nat) (s : gostring) (maxLen : Z) :
  valid s -> 4 <= maxLen -> len s < 2 ^ 62 ->
  forall (splits : list gostring) (l : Z),
    0 <= l <= len s -> len s - l < Z.of_nat fuel ->
    exists chunks,
      splitLoop fuel s maxLen splits l (l + maxLen) = Ok (splits ++ chunks) /\
      chunks <> [] /\
      Forall (fun c => maxLen - 3 <= len c <= maxLen) (removelast chunks) /\
      len (lastChunk chunks) <= maxLen /\
      (l < len s -> Forall (fun c => c <> []) chunks).
Proof.
  intros Hv Hmax Hlen.
  induction fuel as [|fuel IH]; intros splits l Hl Hfuel; [lia|].
  rewrite splitLoop_S. destruct (Z.ltb_spec (l + maxLen) (len s)) as [Hlt|Hge].
  - destruct (@walkBack_valid s (l + maxLen) Hv) as (r' & Hw & Hr0 & Hr' & _);
      [lia|].
    rewrite Hw. simpl.
    destruct (slice s l r') as [chunk| |] eqn:Hs.
    2,3: unfold slice in Hs;
      destruct (Z.leb_spec 0 l); destruct (Z.leb_spec l r');
      destruct (Z.leb_spec r' (len s)); simpl in Hs; try discriminate; lia.
    simpl. pose proof (slice_app_skipn _ _ _ Hs) as [_ Hlc].
    rewrite wrap64_id by (unfold MinInt, MaxInt; lia).
    destruct (IH (splits ++ [chunk]) r') as (chunks & Hrun & Hne & Hall & Hlast & Hnon);
      try lia.
    exists (chunk :: chunks). rewrite Hrun. repeat split.
    + rewrite <- app_assoc. reflexivity.
    + discriminate.
    + destruct chunks as [|c chunks]; [congruence|].
      change (removelast (chunk :: c :: chunks))
        with (chunk :: removelast (c :: chunks)).
      constructor; auto. lia.
    + destruct chunks as [|c chunks]; [congruence|]. exact Hlast.
    + intros _. constructor.
      * intros ->. change (len (@nil ascii)) with 0 in Hlc. lia.
      * apply Hnon. lia.
  - destruct (sliceFrom s l) as [chunk| |] eqn:Hs.
    2,3: unfold sliceFrom, slice in Hs;
      destruct (Z.leb_spec 0 l); destruct (Z.leb_spec l (len s));
      destruct (Z.leb_spec (len s) (len s)); simpl in Hs; try discriminate; lia.
    simpl. pose proof (slice_app_skipn _ _ _ Hs) as [_ Hlc].
    exists [chunk]. repeat split.
    + discriminate.
    + constructor.
    + unfold lastChunk. simpl. lia.
    + intros Hlt. constructor; [|constructor].
      intros ->. change (len (@nil ascii)) with 0 in Hlc. lia.
Qed.

(** ** Escaping *)

Lemma flat_map_flat_map (A B C : Type) (f : A -> list B) (g : B -> list C)
      (l : list A) :
  flat_map g (flat_map f l) = flat_map (fun a => flat_map g (f a)) l.
Proof.
  induction l as [|a l IH]; simpl; auto.
  rewrite flat_map_app, IH. reflexivity.
Qed.

Lemma escape_unfold (text : gostring) :
  escape text =
  Replace1 (Replace1 (Replace1 text backslash [backslash; backslash])
                     newline [backslash; letter_n])
           dquote [backslash; dquote].
Proof. reflexivity. Qed.

Lemma escape_flat_map (text : gostring) :
  escape text = flat_map escapeByte text.
Proof.
  rewrite escape_unfold. unfold Replace1.
  rewrite !flat_map_flat_map. apply flat_map_ext. intros c.
  unfold escapeByte.
  destruct (Ascii.eqb_spec c backslash) as [->|Hb]; [reflexivity|].
  simpl. destruct (Ascii.eqb_spec c newline) as [->|Hn]; [reflexivity|].
  simpl. destruct (Ascii.eqb_spec c dquote) as [->|Hq]; reflexivity.
Qed.

Lemma unescape_backslash (d : ascii) (t : gostring) :
  unescape (backslash :: d :: t) =
  (if Ascii.eqb d letter_n then newline else d) :: unescape t.
Proof.
  change (unescape (backslash :: d :: t))
    with (if Ascii.eqb backslash backslash
          then (if Ascii.eqb d letter_n then newline else d) :: unescape t
          else backslash :: unescape (d :: t)).
  rewrite Ascii.eqb_refl. reflexivity.
Qed.

Lemma unescape_plain (c : ascii) (t : gostring) :
  c <> backslash -> unescape (c :: t) = c :: unescape t.
Proof.
  intros Hc.
  change (unescape (c :: t))
    with (if Ascii.eqb c backslash
          then match t with
               | d :: t' => (if Ascii.eqb d letter_n then newline else d) :: unescape t'
               | [] => [c]
               end
          else c :: unescape t).
  destruct (Ascii.eqb_spec c backslash); [contradiction | reflexivity].
Qed.

Lemma escapeByte_plain (c : ascii) :
  c <> backslash -> c <> newline -> c <> dquote -> escapeByte c = [c].
Proof.
  intros Hb Hn Hq. unfold escapeByte.
  destruct (Ascii.eqb_spec c backslash); [contradiction|].
  destruct (Ascii.eqb_spec c newline); [contradiction|].
  destruct (Ascii.eqb_spec c dquote); [contradiction|].
  reflexivity.
Qed.

Lemma unescape_escape (text : gostring) : unescape (escape text) = text.
Proof.
  rewrite escape_flat_map.
  induction text as [|c t IH]; [reflexivity|].
  change (flat_map escapeByte (c :: t))
    with (escapeByte c ++ flat_map escapeByte t).
  destruct (Ascii.eqb_spec c backslash) as [->|Hb].
  { change (escapeByte backslash ++ flat_map escapeByte t)
      with (backslash :: backslash :: flat_map escapeByte t).
    rewrite unescape_backslash, IH. reflexivity. }
  destruct (Ascii.eqb_spec c newline) as [->|Hn].
  { change (escapeByte newline ++ flat_map escapeByte t)
      with (backslash :: letter_n :: flat_map escapeByte t).
    rewrite unescape_backslash, IH. reflexivity. }
  destruct (Ascii.eqb_spec c dquote) as [->|Hq].
  { change (escapeByte dquote ++ flat_map escapeByte t)
      with (backslash :: dquote :: flat_map escapeByte t).
    rewrite unescape_backslash, IH. reflexivity. }
  rewrite escapeByte_plain by assumption.
  change ([c] ++ flat_map escapeByte t) with (c :: flat_map escapeByte t).
  rewrite unescape_plain, IH by assumption. reflexivity.
Qed.

Lemma escapeByte_high (c : ascii) : 0x80 <= byteval c -> escapeByte c = [c].
Proof.
  intros H. unfold escapeByte.
  destruct (Ascii.eqb_spec c backslash) as [->|_]; [vm_compute in H; congruence|].
  destruct (Ascii.eqb_spec c newline) as [->|_]; [vm_compute in H; congruence|].
  destruct (Ascii.eqb_spec c dquote) as [->|_]; [vm_compute in H; congruence|].
  reflexivity.
Qed.

Lemma inRange_high (lo hi : Z) (b : ascii) :
  0x80 <= lo -> inRange lo hi b = true -> 0x80 <= byteval b.
Proof.
  unfold inRange. intros Hlo H. apply andb_true_iff in H.
  destruct H as [H _]. apply Z.leb_le in H. lia.
Qed.

Ltac high_byte :=
  match goal with
  | Hr : inRange ?lo ?hi ?b = true |- _ <= byteval ?b =>
    apply (@inRange_high lo hi b); [assumption || lia | exact Hr]
  end.

Lemma escapeByte_ascii (c : ascii) (rest : gostring) :
  first c = LAscii -> valid rest -> valid (escapeByte c ++ rest).
Proof.
  unfold valid, escapeByte. intros Hc Hr.
  destruct (Ascii.eqb c backslash); [exact Hr|].
  destruct (Ascii.eqb c newline); [exact Hr|].
  destruct (Ascii.eqb c dquote); [exact Hr|].
  simpl. rewrite Hc. exact Hr.
Qed.

(** Escaping touches ASCII bytes only: it keeps a valid text valid. *)
Lemma escape_valid_aux (n : nat) :
  forall s : gostring,
    (List.length s <= n)%nat -> valid s -> valid (flat_map escapeByte s).
Proof.
  unfold valid.
  induction n as [|n IH]; intros s Hn Hv.
  - destruct s; [reflexivity | simpl in Hn; lia].
  - destruct s as [|b0 s]; [reflexivity|].
    simpl in Hv, Hn.
    pose proof (first_ranges b0) as Hr.
    destruct (first b0) as [| |lo hi|lo hi|lo hi] eqn:Hf.
    + simpl. apply escapeByte_ascii; auto. apply IH; auto; lia.
    + discriminate.
    + destruct Hr as (H0 & Hlo & Hhi).
      destruct s as [|b1 s]; [discriminate|]. split_andb.
      simpl in Hn. simpl.
      rewrite (escapeByte_high b0) by lia.
      rewrite (escapeByte_high b1) by high_byte.
      simpl. rewrite Hf. rewrite (IH s) by (auto; lia). solve_andb.
    + destruct Hr as (H0 & Hlo & Hhi).
      destruct s as [|b1 [|b2 s]]; try discriminate. split_andb.
      simpl in Hn. simpl.
      rewrite (escapeByte_high b0) by lia.
      rewrite (escapeByte_high b1) by high_byte.
      rewrite (escapeByte_high b2) by high_byte.
      simpl. rewrite Hf. rewrite (IH s) by (auto; lia). solve_andb.
    + destruct Hr as (H0 & Hlo & Hhi).
      destruct s as [|b1 [|b2 [|b3 s]]]; try discriminate. split_andb.
      simpl in Hn. simpl.
      rewrite (escapeByte_high b0) by lia.
      rewrite (escapeByte_high b1) by high_byte.
      rewrite (escapeByte_high b2) by high_byte.
      rewrite (escapeByte_high b3) by high_byte.
      simpl. rewrite Hf. rewrite (IH s) by (auto; lia). solve_andb.
Qed.

Lemma escape_valid (text : gostring) : valid text -> valid (escape text).
Proof.
  rewrite escape_flat_map. apply (@escape_valid_aux (List.length text)). lia.
Qed.

Lemma escape_len (text : gostring) : len (escape text) <= 2 * len text.
Proof.
  rewrite escape_flat_map.
  induction text as [|c t IH]; [vm_compute; discriminate|].
  change (flat_map escapeByte (c :: t))
    with (escapeByte c ++ flat_map escapeByte t).
  rewrite len_app, len_cons.
  assert (len (escapeByte c) <= 2).
  { unfold escapeByte.
    destruct (Ascii.eqb c backslash); [vm_compute; discriminate|].
    destruct (Ascii.eqb c newline); [vm_compute; discriminate|].
    destruct (Ascii.eqb c dquote); vm_compute; discriminate. }
  lia.
Qed.

(** ** The partitioner *)

Lemma wrap64_add_l (a b : Z) : wrap64 (wrap64 a + b) = wrap64 (a + b).
Proof.
  unfold wrap64.
  replace ((a + 2 ^ 63) mod 2 ^ 64 - 2 ^ 63 + b + 2 ^ 63)
    with ((a + 2 ^ 63) mod 2 ^ 64 + b) by lia.
  rewrite Zplus_mod_idemp_l.
  replace (a + 2 ^ 63 + b) with (a + b + 2 ^ 63) by lia. reflexivity.
Qed.

(** [chunkSize] is the ceiling of [len(records) / parallelRoutines]. *)
Lemma chunkSize_Ok (n p : Z) :
  0 <= n -> 1 <= p -> n + p - 1 <= MaxInt ->
  quot64 (wrap64 (wrap64 (n + p) - 1)) p = Ok ((n + p - 1) / p).
Proof.
  intros Hn Hp Hov. unfold quot64.
  destruct (Z.eqb_spec p 0); [lia|].
  replace (wrap64 (n + p) - 1) with (wrap64 (n + p) + (-1)) by lia.
  rewrite wrap64_add_l.
  rewrite (wrap64_id (z := n + p + -1)) by (unfold MinInt, MaxInt in *; lia).
  replace (n + p + -1) with (n + p - 1) by lia.
  rewrite Z.quot_div_nonneg by lia.
  assert (0 <= (n + p - 1) / p <= n + p - 1).
  { split; [apply Z.div_pos; lia|]. apply Z.div_le_upper_bound; nia. }
  rewrite wrap64_id by (unfold MinInt, MaxInt in *; lia). reflexivity.
Qed.

Lemma divideLoop_S (A : Type) (fuel : nat) (records : list A) (chunkSize : Z)
      (divided : list (list A)) (i : Z) :
  divideLoop (S fuel) records chunkSize divided i =
  if i <? len records then
    part <- slice records i
              (if wrap64 (i + chunkSize) >? len records then len records
               else wrap64 (i + chunkSize)) ;;
    divideLoop fuel records chunkSize (divided ++ [part]) (wrap64 (i + chunkSize))
  else Ok divided.
Proof. reflexivity. Qed.

Lemma skipn_nil_len (A : Type) (l : list A) (i : Z) :
  len l <= i -> skipn (Z.to_nat i) l = [].
Proof. intros H. apply skipn_all2. unfold len in H. lia. Qed.

Lemma divideLoop_spec (A : Type) (fuel : nat) (records : list A) (cs : Z) :
  1 <= cs -> len records + cs <= MaxInt ->
  forall (divided : list (list A)) (i : Z),
    0 <= i -> Z.max 0 (len records - i) < Z.of_nat fuel ->
    exists parts,
      divideLoop fuel records cs divided i = Ok (divided ++ parts) /\
      List.concat parts = skipn (Z.to_nat i) records /\
      (forall (k : nat) (part : list A),
          nth_error parts k = Some part ->
          slice records (i + Z.of_nat k * cs)
                (Z.min (i + (Z.of_nat k + 1) * cs) (len records)) = Ok part /\
          part <> []) /\
      len parts = (if i <? len records
                   then (len records - i + cs - 1) / cs else 0).
Proof.
  intros Hcs Hov.
  induction fuel as [|fuel IH]; intros divided i Hi Hfuel; [lia|].
  rewrite divideLoop_S.
  pose proof (len_nonneg records) as Hlen.
  destruct (Z.ltb_spec i (len records)) as [Hlt|Hge].
  - rewrite wrap64_id by (unfold MinInt, MaxInt in *; lia).
    assert (He : (if i + cs >? len records then len records else i + cs)
                 = Z.min (i + cs) (len records)).
    { rewrite Z.gtb_ltb. destruct (Z.ltb_spec (len records) (i + cs)); lia. }
    rewrite He.
    destruct (slice records i (Z.min (i + cs) (len records))) as [part| |] eqn:Hs.
    2,3: unfold slice in Hs;
      destruct (Z.leb_spec 0 i);
      destruct (Z.leb_spec i (Z.min (i + cs) (len records)));
      destruct (Z.leb_spec (Z.min (i + cs) (len records)) (len records));
      simpl in Hs; try discriminate; lia.
    simpl.
    destruct (IH (divided ++ [part]) (i + cs)) as (parts & Hrun & Hcat & Hnth & Hn);
      try lia.
    pose proof (slice_app_skipn _ _ _ Hs) as [Happ Hlp].
    exists (part :: parts). rewrite Hrun. repeat split.
    + rewrite <- app_assoc. reflexivity.
    + simpl. rewrite Hcat. rewrite <- Happ. f_equal.
      destruct (Z.le_ge_cases (i + cs) (len records)).
      * rewrite Z.min_l by lia. reflexivity.
      * rewrite Z.min_r by lia. rewrite !skipn_nil_len by lia. reflexivity.
    + destruct k as [|k]; simpl in H.
      * inversion H; subst part0.
        replace (i + Z.of_nat 0 * cs) with i by lia.
        replace (i + (Z.of_nat 0 + 1) * cs) with (i + cs) by lia. exact Hs.
      * apply Hnth in H. destruct H as [H _].
        replace (i + Z.of_nat (S k) * cs) with (i + cs + Z.of_nat k * cs) by lia.
        replace (i + (Z.of_nat (S k) + 1) * cs)
          with (i + cs + (Z.of_nat k + 1) * cs) by lia.
        exact H.
    + destruct k as [|k]; simpl in H.
      * inversion H; subst part0. intros ->.
        change (len (@nil A)) with 0 in Hlp. lia.
      * apply Hnth in H. tauto.
    + rewrite len_cons, Hn.
      destruct (Z.ltb_spec (i + cs) (len records)).
      * replace (len records - i + cs - 1)
          with ((len records - (i + cs) + cs - 1) + 1 * cs) by lia.
        rewrite Z.div_add by lia. reflexivity.
      * apply Z.div_unique with (r := len records - i - 1); lia.
  - exists []. rewrite app_nil_r. repeat split.
    + simpl. rewrite skipn_nil_len by lia. reflexivity.
    + destruct k; discriminate.
    + destruct k; discriminate.
Qed.

(** The partitions of a batch: what [divideIngestBulkRecords] returns when
    [parallelRoutines >= 1] and the sum [len(records) + parallelRoutines - 1]
    fits an [int]. *)
Lemma divideIngestBulkRecords_spec (A : Type) (fuel : nat) (records : list A)
      (p : Z) :
  1 <= p -> len records < 2 ^ 62 -> len records + p - 1 <= MaxInt ->
  len records < Z.of_nat fuel ->
  exists parts,
    divideIngestBulkRecords fuel records p = Ok parts /\
    List.concat parts = records /\
    (forall (k : nat) (part : list A),
        nth_error parts k = Some part ->
        slice records (Z.of_nat k * chunkSizeOf (len records) p)
              (Z.min ((Z.of_nat k + 1) * chunkSizeOf (len records) p)
                     (len records)) = Ok part /\
        part <> []) /\
    (records <> [] ->
     1 <= chunkSizeOf (len records) p /\
     len parts = (len records + chunkSizeOf (len records) p - 1)
                 / chunkSizeOf (len records) p).
Proof.
  intros Hp Hlen Hov Hfuel.
  pose proof (len_nonneg records) as Hn.
  unfold divideIngestBulkRecords. rewrite chunkSize_Ok by lia. simpl.
  fold (chunkSizeOf (len records) p).
  destruct records as [|r records].
  - destruct fuel as [|fuel]; [simpl in Hfuel; lia|].
    exists []. repeat split; try (destruct k; discriminate); congruence.
  - set (n := len (r :: records)) in *.
    assert (Hn1 : 1 <= n) by (unfold n; rewrite len_cons; pose proof (len_nonneg records); lia).
    assert (Hcs : 1 <= chunkSizeOf n p <= n).
    { unfold chunkSizeOf. split.
      - apply Z.div_le_lower_bound; lia.
      - apply Z.div_le_upper_bound; nia. }
    destruct (@divideLoop_spec A fuel (r :: records) (chunkSizeOf n p)) with
      (divided := @nil (list A)) (i := 0) as (parts & Hrun & Hcat & Hnth & Hlp);
      try (fold n; unfold MaxInt; lia).
    exists parts. rewrite Hrun.
    split; [reflexivity|]. split; [exact Hcat|]. split.
    + intros k part H. apply Hnth in H. destruct H as [H Hne]. fold n in H.
      replace (0 + Z.of_nat k * chunkSizeOf n p)
        with (Z.of_nat k * chunkSizeOf n p) in H by lia.
      replace (0 + (Z.of_nat k + 1) * chunkSizeOf n p)
        with ((Z.of_nat k + 1) * chunkSizeOf n p) in H by lia.
      split; assumption.
    + intros _. split; [lia|].
      fold n in Hlp. destruct (Z.ltb_spec 0 n); [|lia].
      rewrite Hlp. f_equal; lia.
Qed.

(** ** Left indexes *)

Lemma offsets_lower (chunks : list gostring) :
  forall l, Forall (fun o => l <= o) (offsets l chunks).
Proof.
  induction chunks as [|c chunks IH]; intros l; simpl; constructor.
  - lia.
  - eapply Forall_impl; [|apply IH]. simpl. intros o Ho.
    pose proof (len_nonneg c). lia.
Qed.

Lemma offsets_increasing (chunks : list gostring) :
  forall l,
    Forall (fun c => 1 <= len c) (removelast chunks) ->
    StronglySorted Z.lt (offsets l chunks).
Proof.
  induction chunks as [|c chunks IH]; intros l H; simpl.
  - constructor.
  - destruct chunks as [|c' chunks].
    + simpl. constructor; constructor.
    + change (removelast (c :: c' :: chunks))
        with (c :: removelast (c' :: chunks)) in H.
      inversion H; subst. constructor.
      * apply IH. assumption.
      * eapply Forall_impl; [|apply offsets_lower]. simpl. intros o Ho. lia.
Qed.

(** ** Interleaving *)

Lemma setNth_concat (A : Type) (logs : list (list A)) :
  forall (k : nat) (e : A) (rest : list A),
    nth_error logs k = Some (e :: rest) ->
    Permutation (e :: List.concat (setNth k rest logs)) (List.concat logs).
Proof.
  induction logs as [|log logs IH]; intros k e rest H.
  - destruct k; discriminate.
  - destruct k as [|k]; simpl in H.
    + inversion H; subst. reflexivity.
    + simpl. apply IH in H.
      rewrite <- H. apply Permutation_middle.
Qed.

(** The merge neither loses nor repeats an append. *)
Lemma interleave_Permutation (A : Type) (sched : list nat) :
  forall logs : list (list A),
    Permutation (interleave sched logs) (List.concat logs).
Proof.
  induction sched as [|k sched IH]; intros logs; simpl.
  - reflexivity.
  - destruct (nth_error logs k) as [[|e rest]|] eqn:Hk; auto.
    rewrite IH. apply setNth_concat. exact Hk.
Qed.

Lemma interleave_nil (A : Type) (sched : list nat) :
  interleave sched (@nil (list A)) = [].
Proof.
  induction sched as [|k sched IH]; simpl; auto.
  destruct k; exact IH.
Qed.

Lemma interleave_single (A : Type) (sched : list nat) :
  forall log : list A, interleave sched [log] = log.
Proof.
  induction sched as [|k sched IH]; intros log; simpl.
  - apply app_nil_r.
  - destruct k as [|k]; simpl.
    + destruct log as [|e rest]; [apply IH|]. rewrite IH. reflexivity.
    + destruct k; apply IH.
Qed.

(** ** Workers *)

(** With a connection, one record makes the worker append at most one error,
    whatever the transport answers, and the loop goes on to the next
    record. *)
Lemma pushLoop_errs (collection bucket object : gostring)
      (chunks : list gostring) :
  forall (w w' : world) (r : option error),
    pushLoop collection bucket object chunks w = Ok (r, w') ->
    errs w' = errs w.
Proof.
  induction chunks as [|c chunks IH]; intros w w' r H; simpl in H.
  - inversion H; subst; reflexivity.
  - unfold bind, write, read, outcome, ret in H. simpl in H.
    destruct (tape w) as [|o t].
    + simpl in H. apply IH in H. exact H.
    + simpl in H. destruct o as [e|].
      * inversion H; subst; reflexivity.
      * destruct t as [|o' t']; simpl in H.
        -- apply IH in H. exact H.
        -- destruct o' as [e|].
           ++ inversion H; subst; reflexivity.
           ++ apply IH in H. exact H.
Qed.

Lemma bulkPushRecord_open (d : driver) (fuel : nat)
      (collection bucket : gostring) (rec : IngestBulkRecord) (w w' : world) :
  bulkPushRecord d fuel collection bucket true rec w = Ok (tt, w') ->
  errs w' = errs w \/
  exists e, errs w' = errs w ++ [mkBulkError (Object rec) e].
Proof.
  unfold bulkPushRecord, Push, bind, ret, lift. intros H.
  destruct (pushChunks fuel (cmdMaxBytes d) (Text rec)) as [chunks| |];
    try discriminate.
  destruct (pushLoop collection bucket (Object rec) chunks w)
    as [[r w1]| |] eqn:Hp; try discriminate.
  apply pushLoop_errs in Hp.
  destruct r as [e|].
  - unfold addBulkError in H. inversion H; subst. simpl. rewrite Hp. eauto.
  - unfold connRead, read, outcome in H.
    destruct (tape w1) as [|o t].
    + inversion H; subst. auto.
    + destruct o as [e|].
      * unfold addBulkError in H. inversion H; subst. simpl. rewrite Hp. eauto.
      * inversion H; subst. simpl. auto.
Qed.

Lemma slice_whole (A : Type) (s : list A) : sliceFrom s 0 = Ok s.
Proof.
  unfold sliceFrom, slice. pose proof (len_nonneg s).
  destruct (Z.leb_spec 0 0); [|lia].
  destruct (Z.leb_spec 0 (len s)); [|lia].
  destruct (Z.leb_spec (len s) (len s)); [|lia]. simpl.
  rewrite firstn_all2; [reflexivity|]. unfold len. lia.
Qed.

Lemma outcome_Ok (w : world) :
  exists o w', outcome w = Ok (o, w') /\
               sent w' = sent w /\ errs w' = errs w /\
               (tape w = [] -> o = None /\ tape w' = []) /\
               (forall o1 t, tape w = o1 :: t -> o = o1 /\ tape w' = t).
Proof.
  unfold outcome. destruct (tape w) as [|o1 t] eqn:E.
  - exists None, w. split; [reflexivity|]. split; [reflexivity|].
    split; [reflexivity|]. split; [auto|]. intros o2 t2 Heq. discriminate.
  - exists o1, (mkWorld t (sent w) (errs w)).
    split; [reflexivity|]. split; [reflexivity|]. split; [reflexivity|].
    split; [intros Heq; discriminate|].
    intros o2 t2 Heq. inversion Heq. split; reflexivity.
Qed.

Lemma write_Ok (line : gostring) (w : world) :
  exists o w', write line w = Ok (o, w') /\
               sent w' = sent w ++ [line] /\ errs w' = errs w /\
               (tape w = [] -> o = None /\ tape w' = []) /\
               (forall o1 t, tape w = o1 :: t -> o = o1 /\ tape w' = t).
Proof.
  unfold write.
  destruct (outcome_Ok (mkWorld (tape w) (sent w ++ [line]) (errs w)))
    as (o & w' & Hrun & Hs & He & Hn & Hc).
  exists o, w'. simpl in *. auto.
Qed.

Lemma pushLoop_sent (collection bucket object : gostring) (chunks : list gostring) :
  forall w : world,
    exists (r : option error) (w' : world) (n : nat),
      pushLoop collection bucket object chunks w = Ok (r, w') /\
      (n <= List.length chunks)%nat /\
      sent w' = sent w ++ map (cmdLine push collection bucket object)
                              (firstn n chunks) /\
      errs w' = errs w /\
      (r = None -> n = List.length chunks) /\
      (r <> None -> (1 <= n)%nat).
Proof.
  induction chunks as [|chunk chunks IH]; intros w.
  - exists None, w, 0%nat. simpl. rewrite app_nil_r.
    split; [reflexivity|]. split; [lia|]. split; [reflexivity|].
    split; [reflexivity|]. split; [reflexivity | congruence].
  - simpl pushLoop. unfold bind at 1.
    destruct (write_Ok (cmdLine push collection bucket object chunk) w)
      as (o & w1 & Hw & Hs1 & He1 & _).
    rewrite Hw. destruct o as [e|].
    + exists (Some e), w1, 1%nat. unfold ret. simpl.
      split; [reflexivity|]. split; [lia|]. split; [exact Hs1|].
      split; [exact He1|]. split; [discriminate | lia].
    + unfold bind at 1. unfold read.
      destruct (outcome_Ok w1) as (o & w2 & Ho & Hs2 & He2 & _).
      rewrite Ho. destruct o as [e|].
      * exists (Some e), w2, 1%nat. unfold ret. simpl.
        split; [reflexivity|]. split; [lia|]. split; [congruence|].
        split; [congruence|]. split; [discriminate | lia].
      * destruct (IH w2) as (r & w' & n & Hrun & Hn & Hs & He & Hall & Hone).
        exists r, w', (S n). rewrite Hrun. simpl.
        split; [reflexivity|]. split; [lia|]. split.
        { rewrite Hs, Hs2, Hs1, <- app_assoc. reflexivity. }
        split; [congruence|]. split; [|lia].
        intros Hr. rewrite (Hall Hr). reflexivity.
Qed.

Lemma Push_fitting (d : driver) (fuel : nat)
      (collection bucket object text : gostring) (w : world) :
  len (escape text) <= Z.quot (cmdMaxBytes d) 2 ->
  exists (r : option error) (w' : world),
    Push d (S fuel) collection bucket object text w = Ok (r, w') /\
    sent w' = sent w ++ [cmdLine push collection bucket object (escape text)].
Proof.
  intros Hfit.
  unfold Push, bind, lift, pushChunks, splitText. rewrite splitLoop_S.
  destruct (Z.ltb_spec (Z.quot (cmdMaxBytes d) 2) (len (escape text))); [lia|].
  rewrite slice_whole. cbv beta iota delta [rbind]. simpl app.
  destruct (pushLoop_sent collection bucket object [escape text] w)
    as (r & w' & n & Hrun & Hn & Hs & _ & Hall & Hone).
  exists r, w'. split; [exact Hrun|].
  rewrite Hs. f_equal.
  assert (n = 1%nat).
  { destruct r as [e|]; [|apply Hall; reflexivity].
    assert (1 <= n)%nat by (apply Hone; discriminate). simpl in Hn. lia. }
  subst n. reflexivity.
Qed.

(* ================================================================== *)
(** * The partitioner: claims C2, C7, C3, C8 *)

Lemma ceil_div_bounds (n p : Z) :
  1 <= n -> 1 <= p ->
  1 <= chunkSizeOf n p <= n /\ n <= p * chunkSizeOf n p /\
  p * chunkSizeOf n p <= n + p - 1.
Proof.
  intros Hn Hp. unfold chunkSizeOf.
  pose proof (Z.div_mod (n + p - 1) p ltac:(lia)) as Hd.
  pose proof (Z.mod_pos_bound (n + p - 1) p ltac:(lia)) as Hm.
  nia.
Qed.

Lemma nth_error_len (A : Type) (l : list A) (k : Z) :
  0 <= k < len l -> exists x, nth_error l (Z.to_nat k) = Some x.
Proof.
  intros Hk. destruct (nth_error l (Z.to_nat k)) as [x|] eqn:E; [eauto|].
  apply nth_error_None in E. unfold len in Hk. lia.
Qed.

(** C2. For a record list (of fewer than [2^62] elements, as every Go slice
    is) and an effective parallelism [p >= 1] (with [len(records) + p - 1]
    within [int], which holds on the whole range [1 .. len(records)] of the
    clamp), [divideIngestBulkRecords] returns partitions that are contiguous
    slices of the input, taken left to right: their concatenation is the
    input, the sum of their lengths is [len(records)], partition [k] is the
    slice starting at [k * chunkSize], and every position of the input lies
    in the index range of exactly one partition. *)
Theorem divideIngestBulkRecords_partition
        (A : Type) (fuel : nat) (records : list A) (p : Z)
        (Hp : 1 <= p) (Hlen : len records < 2 ^ 62)
        (Hov : len records + p - 1 <= MaxInt)
        (Hfuel : len records < Z.of_nat fuel) :
  exists parts,
    divideIngestBulkRecords fuel records p = Ok parts /\
    List.concat parts = records /\
    list_sum (map (@List.length A) parts) = List.length records /\
    (forall (k : nat) (part : list A),
        nth_error parts k = Some part ->
        slice records (Z.of_nat k * chunkSizeOf (len records) p)
              (Z.min ((Z.of_nat k + 1) * chunkSizeOf (len records) p)
                     (len records)) = Ok part /\
        part <> []) /\
    (forall i : Z,
        0 <= i < len records ->
        exists k : nat,
          (exists part, nth_error parts k = Some part /\
                        Z.of_nat k * chunkSizeOf (len records) p <= i
                        < Z.of_nat k * chunkSizeOf (len records) p + len part) /\
          (forall (k' : nat) (part' : list A),
              nth_error parts k' = Some part' ->
              Z.of_nat k' * chunkSizeOf (len records) p <= i
              < Z.of_nat k' * chunkSizeOf (len records) p + len part' ->
              k' = k)).
Proof.
  destruct (@divideIngestBulkRecords_spec A fuel records p Hp Hlen Hov Hfuel)
    as (parts & Hrun & Hcat & Hnth & Hcount).
  exists parts. split; [exact Hrun|]. split; [exact Hcat|]. split.
  { rewrite <- Hcat. symmetry. apply length_concat. }
  split; [exact Hnth|].
  intros i Hi.
  assert (Hne : records <> []).
  { intros ->. change (len (@nil A)) with 0 in Hi. lia. }
  destruct (Hcount Hne) as [Hcs Hn].
  set (cs := chunkSizeOf (len records) p) in *.
  set (n := len records) in *.
  pose proof (Z.div_mod i cs ltac:(lia)) as Hd.
  pose proof (Z.mod_pos_bound i cs ltac:(lia)) as Hm.
  assert (Hk : 0 <= i / cs < len parts).
  { split; [apply Z.div_pos; lia|]. rewrite Hn.
    apply Z.div_lt_upper_bound; [lia|].
    pose proof (Z.div_mod (n + cs - 1) cs ltac:(lia)).
    pose proof (Z.mod_pos_bound (n + cs - 1) cs ltac:(lia)). nia. }
  destruct (nth_error_len parts Hk) as [part Hpart].
  exists (Z.to_nat (i / cs)). split.
  - exists part. split; [exact Hpart|].
    destruct (Hnth _ _ Hpart) as [Hs _].
    apply slice_app_skipn in Hs. destruct Hs as [_ Hl].
    rewrite Hl. rewrite Z2Nat.id by lia. lia.
  - intros k' part' Hk' Hin.
    destruct (Hnth _ _ Hk') as [Hs _].
    apply slice_app_skipn in Hs. destruct Hs as [_ Hl].
    rewrite Hl in Hin.
    assert (Z.of_nat k' = i / cs); [|lia].
    apply Z.div_unique with (r := i - cs * Z.of_nat k'); lia.
Qed.

(** C7, at an input: four records and [p = 3] make [chunkSize = 2], and the
    partitioner returns two partitions, not three. *)
Lemma divide_four_by_three_gives_two :
  1 <= 3 <= len [recA; recB; recC; recD] /\
  divideIngestBulkRecords 5 [recA; recB; recC; recD] 3
  = Ok [[recA; recB]; [recC; recD]] /\
  len [[recA; recB]; [recC; recD]] <> 3.
Proof.
  split; [vm_compute; split; discriminate|].
  split; [vm_compute; reflexivity | vm_compute; discriminate].
Qed.

(** C7, amended. For a non-empty record list (of fewer than [2^62] elements)
    and [p] in [1 .. len(records)], with
    [chunkSize = ceil(len(records) / p)], the partitioner returns, in order,
    [ceil(len(records) / chunkSize)] partitions, at least one and at most
    [p], and partition [k] is
    [records[k*chunkSize : min((k+1)*chunkSize, len(records))]]. *)
Theorem divideIngestBulkRecords_slices
        (A : Type) (fuel : nat) (records : list A) (p : Z)
        (Hne : records <> []) (Hp : 1 <= p <= len records)
        (Hlen : len records < 2 ^ 62)
        (Hfuel : len records < Z.of_nat fuel) :
  let chunkSize := chunkSizeOf (len records) p in
  exists parts,
    divideIngestBulkRecords fuel records p = Ok parts /\
    len parts = (len records + chunkSize - 1) / chunkSize /\
    1 <= len parts <= p /\
    forall (k : nat) (part : list A),
      nth_error parts k = Some part ->
      slice records (Z.of_nat k * chunkSize)
            (Z.min ((Z.of_nat k + 1) * chunkSize) (len records)) = Ok part.
Proof.
  intros chunkSize.
  destruct (@divideIngestBulkRecords_spec A fuel records p) as
      (parts & Hrun & Hcat & Hnth & Hcount);
    try (unfold MaxInt; lia).
  destruct (Hcount Hne) as [Hcs Hn]. fold chunkSize in Hcs, Hn, Hnth.
  exists parts. split; [exact Hrun|]. split; [exact Hn|]. split.
  - assert (Hn1 : 1 <= len records) by lia.
    destruct (@ceil_div_bounds (len records) p Hn1 ltac:(lia)) as (H1 & H2 & H3).
    fold chunkSize in H1, H2, H3.
    rewrite Hn. split.
    + apply Z.div_le_lower_bound; lia.
    + apply Z.lt_succ_r. apply Z.div_lt_upper_bound; nia.
  - intros k part Hk. apply Hnth in Hk. tauto.
Qed.

Lemma divideIngestBulkRecords_slices_witness :
  [recA; recB; recC; recD] <> [] /\
  1 <= 3 <= len [recA; recB; recC; recD] /\
  exists parts,
    divideIngestBulkRecords 5 [recA; recB; recC; recD] 3 = Ok parts /\
    len parts = 2.
Proof.
  split; [discriminate|]. split; [vm_compute; split; discriminate|].
  destruct (@divideIngestBulkRecords_slices _ 5 [recA; recB; recC; recD] 3)
    as (parts & Hrun & Hn & _).
  - discriminate.
  - vm_compute; split; discriminate.
  - vm_compute; reflexivity.
  - vm_compute; reflexivity.
  - exists parts. split; [exact Hrun|]. rewrite Hn. reflexivity.
Defined.

Lemma divideIngestBulkRecords_partition_witness :
  1 <= 2 /\
  exists parts,
    divideIngestBulkRecords 4 [recA; recB; recC] 2 = Ok parts /\
    List.concat parts = [recA; recB; recC].
Proof.
  split; [lia|].
  destruct (@divideIngestBulkRecords_partition _ 4 [recA; recB; recC] 2)
    as (parts & Hrun & Hcat & _).
  - lia.
  - vm_compute; reflexivity.
  - vm_compute; discriminate.
  - vm_compute; reflexivity.
  - exists parts. split; assumption.
Defined.

Lemma clampRoutines_pos (p : Z) : 1 <= clampRoutines p.
Proof. unfold clampRoutines. destruct (Z.leb_spec p 0); lia. Qed.

(** C3, at an input: with no record, a request of [0] goroutines starts no
    worker, not one. *)
Lemma bulk_no_record_no_worker :
  0 <= 0 /\ bulkDivided 1 0 [] = Ok [] /\
  len (@nil (list IngestBulkRecord)) <> 1.
Proof. split; [lia|]. split; [reflexivity | discriminate]. Qed.

(** C3, amended. For a non-empty record list (of fewer than [2^62]
    elements) and a requested parallelism [p] (with [len(records) + p - 1]
    within [int]), [BulkPush] and [BulkPop] start between [1] and
    [len(records)] workers, none on an empty partition: exactly [1] when
    [p <= 0], exactly [len(records)] when [p > len(records)], and at most
    [p] when [p >= 1]. *)
Theorem bulkDivided_clamp
        (fuel : nat) (p : Z) (records : list IngestBulkRecord)
        (Hne : records <> []) (Hlen : len records < 2 ^ 62)
        (Hov : len records + p - 1 <= MaxInt)
        (Hfuel : len records < Z.of_nat fuel) :
  exists divided,
    bulkDivided fuel p records = Ok divided /\
    Forall (fun part => part <> []) divided /\
    1 <= len divided <= len records /\
    (p <= 0 -> len divided = 1) /\
    (len records < p -> len divided = len records) /\
    (1 <= p -> len divided <= p).
Proof.
  unfold bulkDivided.
  pose proof (clampRoutines_pos p) as Hc.
  assert (Hn1 : 1 <= len records).
  { destruct records; [congruence|]. rewrite len_cons.
    pose proof (len_nonneg records). lia. }
  assert (Hov' : len records + clampRoutines p - 1 <= MaxInt).
  { unfold clampRoutines. destruct (Z.leb_spec p 0); unfold MaxInt in *; lia. }
  destruct (@divideIngestBulkRecords_spec _ fuel records (clampRoutines p)
              Hc Hlen Hov' Hfuel) as (parts & Hrun & Hcat & Hnth & Hcount).
  destruct (Hcount Hne) as [Hcs Hn].
  destruct (@ceil_div_bounds (len records) (clampRoutines p) Hn1 Hc)
    as (H1 & H2 & H3).
  remember (chunkSizeOf (len records) (clampRoutines p)) as cs eqn:Ecs.
  clear Ecs.
  exists parts. split; [exact Hrun|]. split.
  { apply Forall_forall. intros part Hin.
    apply In_nth_error in Hin. destruct Hin as [k Hk].
    apply Hnth in Hk. tauto. }
  rewrite Hn. clear Hn Hnth Hcat Hrun Hcount.
  assert (Hq : forall q, 1 <= q -> (q - 1) * cs < len records <= q * cs ->
                         (len records + cs - 1) / cs = q).
  { intros q Hq1 Hq2. symmetry.
    apply Z.div_unique with (r := len records + cs - 1 - cs * q); nia. }
  split; [|split; [|split]].
  - split.
    + apply Z.div_le_lower_bound; lia.
    + apply Z.div_le_upper_bound; nia.
  - intros Hp0. unfold clampRoutines in *.
    destruct (Z.leb_spec p 0); [|lia]. apply Hq; lia.
  - intros Hbig. unfold clampRoutines in *.
    destruct (Z.leb_spec p 0); [lia|].
    assert (cs = 1) by nia. subst cs. apply Hq; lia.
  - intros Hp1. unfold clampRoutines in *.
    destruct (Z.leb_spec p 0); [lia|].
    apply Z.lt_succ_r. apply Z.div_lt_upper_bound; nia.
Qed.

Lemma bulkDivided_clamp_witness :
  [recA; recB; recC] <> [] /\
  exists divided,
    bulkDivided 4 7 [recA; recB; recC] = Ok divided /\ len divided = 3.
Proof.
  split; [discriminate|].
  destruct (@bulkDivided_clamp 4 7 [recA; recB; recC])
    as (divided & Hrun & _ & _ & _ & Hbig & _).
  - discriminate.
  - vm_compute; reflexivity.
  - vm_compute; discriminate.
  - vm_compute; reflexivity.
  - exists divided. split; [exact Hrun|]. apply Hbig. vm_compute; reflexivity.
Defined.

(** C8. With an empty record list, whatever the requested parallelism, the
    schedule and the transport, [BulkPush] and [BulkPop] divide the batch
    into zero partitions, start no worker (no call on any connection is
    made) and return the empty error list. *)
Theorem bulk_empty
        (d : driver) (fuel : nat) (sched : list nat)
        (tapes : list (list (option error)))
        (collection bucket : gostring) (p : Z) :
  bulkDivided (S fuel) p [] = Ok [] /\
  BulkPush d (S fuel) sched tapes collection bucket p [] = Ok [] /\
  BulkPop d (S fuel) sched tapes collection bucket p [] = Ok [].
Proof.
  assert (H : bulkDivided (S fuel) p [] = Ok []).
  { unfold bulkDivided, divideIngestBulkRecords, quot64.
    pose proof (clampRoutines_pos p).
    destruct (Z.eqb_spec (clampRoutines p) 0); [lia|]. reflexivity. }
  unfold BulkPush, BulkPop. rewrite H. simpl.
  rewrite interleave_nil. repeat split.
Qed.

(* ================================================================== *)
(** * The workers: claims C4, C5 *)

(** C4, at the failing input. One record, the worker's [newConnection]
    fails and so does the write of the [PUSH] line: the record is reported
    twice, once as [ErrClosed] and once with the transport's error. *)
Theorem BulkPush_one_record_two_errors
        (nil : result (option error)) (sched : list nat) :
  BulkPush (mkDriver 20000 nil) 2 sched
           [[Some (ErrTransport 1); Some (ErrTransport 2)]]
           (str "c") (str "b") 1 [recA]
  = Ok [mkBulkError (str "A") ErrClosed;
        mkBulkError (str "A") (ErrTransport 2)].
Proof.
  unfold BulkPush.
  change (bulkDivided 2 1 [recA]) with (Ok [[recA]]).
  cbv beta iota delta [rbind].
  change (spawn (bulkPushWorker (mkDriver 20000 nil) 2 (str "c") (str "b"))
                [[Some (ErrTransport 1); Some (ErrTransport 2)]] [[recA]])
    with (Ok [[mkBulkError (str "A") ErrClosed;
               mkBulkError (str "A") (ErrTransport 2)]]).
  cbv beta iota. rewrite interleave_single. reflexivity.
Qed.

(** C5, at the failing input. Two records on two workers, every
    [newConnection] fails, and the writes of the two [PUSH] lines on the
    channel's own connection fail as well: four errors are returned for two
    records, and one of them is not [ErrClosed]. *)
Theorem BulkPush_no_connection_two_errors_each
        (nil : result (option error)) (sched : list nat) :
  exists errors,
    BulkPush (mkDriver 20000 nil) 3 sched
             [[Some (ErrTransport 1); Some (ErrTransport 2)];
              [Some (ErrTransport 1); Some ErrClosed]]
             (str "c") (str "b") 2 [recA; recB]
    = Ok errors /\
    Permutation errors
                [mkBulkError (str "A") ErrClosed;
                 mkBulkError (str "A") (ErrTransport 2);
                 mkBulkError (str "B") ErrClosed;
                 mkBulkError (str "B") ErrClosed] /\
    len errors = 4.
Proof.
  unfold BulkPush.
  change (bulkDivided 3 2 [recA; recB]) with (Ok [[recA]; [recB]]).
  cbv beta iota delta [rbind].
  change (spawn (bulkPushWorker (mkDriver 20000 nil) 3 (str "c") (str "b"))
                [[Some (ErrTransport 1); Some (ErrTransport 2)];
                 [Some (ErrTransport 1); Some ErrClosed]] [[recA]; [recB]])
    with (Ok [[mkBulkError (str "A") ErrClosed;
               mkBulkError (str "A") (ErrTransport 2)];
              [mkBulkError (str "B") ErrClosed;
               mkBulkError (str "B") ErrClosed]]).
  cbv beta iota. eexists. split; [reflexivity|].
  assert (HP := @interleave_Permutation IngestBulkError sched
            [[mkBulkError (str "A") ErrClosed;
              mkBulkError (str "A") (ErrTransport 2)];
             [mkBulkError (str "B") ErrClosed;
              mkBulkError (str "B") ErrClosed]]).
  split; [exact HP|].
  unfold len. rewrite (Permutation_length HP). reflexivity.
Qed.

(* ================================================================== *)
(** * The line codec: claims C6, C1, C10 *)

(** C6. [Push] escapes its text before it is split: whenever [Push]
    returns, the lines it has written quote, one after the other, chunks of
    the text that the three replacements give when they are applied in the
    order backslash, newline, double quote, and these chunks re-join to the
    text in which every byte is replaced by its escape.  With room for one
    line ([cmdMaxBytes >= 24]), the text [line1], newline, [line2] is sent as
    [line1\nline2], and the text [hi] between double quotes as [hi] between
    escaped double quotes. *)
Theorem Push_escape :
  (forall (d : driver) (fuel : nat)
          (collection bucket object text : gostring)
          (w w' : world) (r : option error),
      Push d fuel collection bucket object text w = Ok (r, w') ->
      exists (chunks : list gostring) (n : nat),
        splitText fuel
                  (Replace1
                     (Replace1
                        (Replace1 text backslash [backslash; backslash])
                        newline [backslash; letter_n])
                     dquote [backslash; dquote])
                  (Z.quot (cmdMaxBytes d) 2) = Ok chunks /\
        List.concat chunks = flat_map escapeByte text /\
        (n <= List.length chunks)%nat /\
        sent w' = sent w ++ map (cmdLine push collection bucket object)
                                (firstn n chunks) /\
        (r = None -> n = List.length chunks)) /\
  (forall (d : driver) (fuel : nat) (collection bucket object : gostring)
          (w : world),
      24 <= cmdMaxBytes d ->
      (exists (r : option error) (w' : world),
          Push d (S fuel) collection bucket object
               (str "line1" ++ [newline] ++ str "line2") w = Ok (r, w') /\
          sent w' = sent w ++ [cmdLine push collection bucket object
                                       (str "line1\nline2")]) /\
      (exists (r : option error) (w' : world),
          Push d (S fuel) collection bucket object
               ([dquote] ++ str "hi" ++ [dquote]) w = Ok (r, w') /\
          sent w' = sent w ++ [cmdLine push collection bucket object
                                       ([backslash; dquote] ++ str "hi"
                                          ++ [backslash; dquote])])).
Proof.
  split.
  - intros d fuel collection bucket object text w w' r H.
    unfold Push, bind, lift in H.
    destruct (pushChunks fuel (cmdMaxBytes d) text) as [chunks| |] eqn:Hc;
      try discriminate.
    destruct (pushLoop_sent collection bucket object chunks w)
      as (r1 & w1 & n & Hrun & Hn & Hs & _ & Hall & _).
    rewrite Hrun in H. inversion H; subst r1 w1.
    exists chunks, n. unfold pushChunks in Hc. rewrite escape_unfold in Hc.
    split; [exact Hc|].
    apply splitLoop_sound in Hc. destruct Hc as (chunks' & -> & _ & Hcat & _).
    rewrite <- escape_unfold, escape_flat_map in Hcat.
    split; [exact Hcat|]. split; [exact Hn|]. split; [exact Hs | exact Hall].
  - intros d fuel collection bucket object w Hcmd.
    assert (Hq : 12 <= Z.quot (cmdMaxBytes d) 2)
      by (apply Z.quot_le_lower_bound; lia).
    split.
    + apply (@Push_fitting d fuel collection bucket object
                           (str "line1" ++ [newline] ++ str "line2") w).
      change (len (escape (str "line1" ++ [newline] ++ str "line2"))) with 12.
      exact Hq.
    + apply (@Push_fitting d fuel collection bucket object
                           ([dquote] ++ str "hi" ++ [dquote]) w).
      change (len (escape ([dquote] ++ str "hi" ++ [dquote]))) with 6.
      lia.
Qed.

Lemma Push_escape_witness :
  24 <= 20000 /\
  exists (r : option error) (w' : world),
    Push (mkDriver 20000 Panic) 1 (str "c") (str "b") (str "o")
         (str "line1" ++ [newline] ++ str "line2") (mkWorld [] [] [])
    = Ok (r, w') /\
    sent w' = [cmdLine push (str "c") (str "b") (str "o") (str "line1\nline2")].
Proof.
  split; [lia|].
  destruct Push_escape as [_ Hsent].
  destruct (Hsent (mkDriver 20000 Panic) 0%nat (str "c") (str "b") (str "o")
                  (mkWorld [] [] [])) as [Hline _].
  - simpl. lia.
  - exact Hline.
Defined.

(** C1, at an input: on five continuation bytes with [maxLen = 4] the walk
    back from index [4] leaves the string and [splitText] panics: no chunk is
    returned that could be re-joined. *)
Lemma splitText_panics_on_continuation_bytes :
  splitText 1 cont5 4 = Panic /\
  ~ (exists (fuel : nat) (chunks : list gostring),
        splitText fuel cont5 4 = Ok chunks /\ List.concat chunks = cont5).
Proof.
  split; [vm_compute; reflexivity|].
  intros (fuel & chunks & H & _).
  destruct fuel; vm_compute in H; discriminate.
Qed.

(** C1, amended. Whenever [splitText] returns, the concatenation of its
    chunks is the text, and for [Push] un-escaping that concatenation gives
    the original text; if the text is valid UTF-8, every chunk is valid
    UTF-8 (no boundary falls inside a character).  [splitText] does return
    on every valid UTF-8 text (shorter than [2^62] bytes) when
    [maxLen >= 4], and so do the chunks of [Push] when
    [cmdMaxBytes >= 8]. *)
Theorem splitText_roundtrip :
  (forall (fuel : nat) (text : gostring) (maxLen : Z) (chunks : list gostring),
      splitText fuel text maxLen = Ok chunks ->
      List.concat chunks = text /\ (valid text -> Forall valid chunks)) /\
  (forall (fuel : nat) (cmd : Z) (text : gostring) (chunks : list gostring),
      pushChunks fuel cmd text = Ok chunks ->
      unescape (List.concat chunks) = text /\
      (valid text -> Forall valid chunks)) /\
  (forall (fuel : nat) (text : gostring) (maxLen : Z),
      valid text -> 4 <= maxLen -> len text < 2 ^ 62 ->
      len text < Z.of_nat fuel ->
      exists chunks, splitText fuel text maxLen = Ok chunks) /\
  (forall (fuel : nat) (cmd : Z) (text : gostring),
      valid text -> 8 <= cmd -> len text < 2 ^ 61 ->
      2 * len text < Z.of_nat fuel ->
      exists chunks, pushChunks fuel cmd text = Ok chunks).
Proof.
  assert (Hsound : forall fuel text maxLen chunks,
             splitText fuel text maxLen = Ok chunks ->
             List.concat chunks = text /\ (valid text -> Forall valid chunks)).
  { intros fuel text maxLen chunks H.
    apply splitLoop_sound in H. destruct H as (chunks' & -> & _ & Hc & Hv).
    exact (conj Hc Hv). }
  assert (Htotal : forall fuel text maxLen,
             valid text -> 4 <= maxLen -> len text < 2 ^ 62 ->
             len text < Z.of_nat fuel ->
             exists chunks, splitText fuel text maxLen = Ok chunks).
  { intros fuel text maxLen Hv Hm Hl Hf.
    destruct (@splitLoop_total fuel text maxLen Hv Hm Hl [] 0)
      as (chunks & Hrun & _); try (pose proof (len_nonneg text); lia).
    exists chunks. exact Hrun. }
  split; [exact Hsound|]. split; [|split; [exact Htotal|]].
  - intros fuel cmd text chunks H. unfold pushChunks in H.
    apply Hsound in H. destruct H as [Hc Hv]. split.
    + rewrite Hc. apply unescape_escape.
    + intros Ht. apply Hv. apply escape_valid. exact Ht.
  - intros fuel cmd text Hv Hcmd Hl Hf. unfold pushChunks.
    pose proof (escape_len text) as He.
    apply Htotal.
    + apply escape_valid. exact Hv.
    + apply Z.quot_le_lower_bound; lia.
    + lia.
    + lia.
Qed.

Lemma splitText_roundtrip_witness :
  valid sample /\ 8 <= 8 /\
  exists chunks,
    pushChunks 20 8 sample = Ok chunks /\
    unescape (List.concat chunks) = sample /\
    Forall valid chunks.
Proof.
  split; [reflexivity|]. split; [lia|].
  destruct splitText_roundtrip as (_ & Hpush & _ & Htotal).
  destruct (Htotal 20%nat 8 sample) as [chunks Hrun].
  - reflexivity.
  - lia.
  - vm_compute; reflexivity.
  - vm_compute; reflexivity.
  - exists chunks. split; [exact Hrun|].
    destruct (Hpush _ _ _ _ Hrun) as [H1 H2].
    split; [exact H1 | apply H2; reflexivity].
Defined.

(** Without the preconditions the loop can fail: on a valid text with
    [maxLen = 3] the walk back from index [3] reaches index [0], the chunk
    is empty and the loop is back in the state it started from. *)
Lemma splitLoop_grin2_diverges (fuel : nat) :
  forall splits : list gostring, splitLoop fuel grin2 3 splits 0 3 = OutOfFuel.
Proof.
  induction fuel as [|fuel IH]; intros splits; [reflexivity|].
  rewrite splitLoop_S.
  change (3 <? len grin2) with true. cbv iota.
  change (walkBack (S (Z.to_nat 3)) grin2 3) with (@Ok Z 0).
  change (slice grin2 0 0) with (@Ok gostring []).
  cbv beta iota delta [rbind].
  change (wrap64 (0 + 3)) with 3. apply IH.
Qed.

(** C10, at an input: the empty string is valid UTF-8 and [splitText]
    returns one chunk for it, which is empty. *)
Lemma splitText_empty_string_empty_chunk :
  valid [] /\ 4 <= 4 /\
  splitText 1 [] 4 = Ok [[]] /\
  ~ Forall (fun c : gostring => c <> []) [[]].
Proof.
  split; [reflexivity|]. split; [lia|]. split; [reflexivity|].
  intros H. inversion H; subst. congruence.
Qed.

(** C10, amended. For a valid UTF-8 string (shorter than [2^62] bytes) and
    [maxLen >= 4], [splitText] returns, with no index or slice out of range:
    the backward walk from any index of the string moves back at most three
    bytes and stays in the string; every chunk but the last has between
    [maxLen - 3] and [maxLen] bytes, so that the left index strictly
    increases, and the last has at most [maxLen]; every chunk is non-empty
    unless the string is empty, which gives one empty chunk.  Both
    preconditions are needed: with [maxLen = 3] a valid string of four-byte
    characters makes the loop run forever, and with [maxLen = 4] five
    continuation bytes make it panic. *)
Theorem splitText_total :
  (forall (fuel : nat) (s : gostring) (maxLen : Z),
      valid s -> 4 <= maxLen -> len s < 2 ^ 62 -> len s < Z.of_nat fuel ->
      (forall r, 0 <= r < len s ->
                 exists r', walkBack (S (Z.to_nat r)) s r = Ok r' /\
                            0 <= r' /\ r - 3 <= r' <= r) /\
      exists chunks,
        splitText fuel s maxLen = Ok chunks /\
        Forall (fun c => maxLen - 3 <= len c <= maxLen) (removelast chunks) /\
        len (lastChunk chunks) <= maxLen /\
        StronglySorted Z.lt (offsets 0 chunks) /\
        (s <> [] -> Forall (fun c => c <> []) chunks) /\
        (s = [] -> chunks = [[]])) /\
  (valid grin2 /\ forall fuel : nat, splitText fuel grin2 3 = OutOfFuel) /\
  (forall fuel : nat, splitText (S fuel) cont5 4 = Panic).
Proof.
  split; [|split; [split|]].
  - intros fuel s maxLen Hv Hm Hl Hf. split.
    + intros r Hr. destruct (@walkBack_valid s r Hv Hr) as (r' & Hw & H0 & H3 & _).
      exists r'. auto.
    + pose proof (len_nonneg s) as Hs.
      destruct (@splitLoop_total fuel s maxLen Hv Hm Hl [] 0)
        as (chunks & Hrun & Hne & Hall & Hlast & Hnon); try lia.
      exists chunks. split; [exact Hrun|]. split; [exact Hall|].
      split; [exact Hlast|]. split; [|split].
      * apply offsets_increasing.
        eapply Forall_impl; [|exact Hall]. simpl. intros c Hc. lia.
      * intros Hsne. apply Hnon. destruct s; [congruence|].
        rewrite len_cons. pose proof (len_nonneg s). lia.
      * intros ->. destruct fuel; [simpl in Hf; lia|].
        unfold splitText in Hrun. rewrite splitLoop_S in Hrun.
        change (len (@nil ascii)) with 0 in Hrun.
        destruct (Z.ltb_spec (0 + maxLen) 0); [lia|].
        inversion Hrun. reflexivity.
  - reflexivity.
  - intros fuel. apply splitLoop_grin2_diverges.
  - intros fuel. vm_compute. reflexivity.
Qed.

Lemma splitText_total_witness :
  valid (grin2 ++ str "abc") /\ 4 <= 5 /\
  exists chunks,
    splitText 12 (grin2 ++ str "abc") 5 = Ok chunks /\
    Forall (fun c : gostring => c <> []) chunks.
Proof.
  split; [reflexivity|]. split; [lia|].
  destruct splitText_total as (Htotal & _).
  destruct (Htotal 12%nat (grin2 ++ str "abc") 5) as (_ & chunks & Hrun & _ & _ & _ & Hne & _).
  - reflexivity.
  - lia.
  - vm_compute; reflexivity.
  - vm_compute; reflexivity.
  - exists chunks. split; [exact Hrun|]. apply Hne. discriminate.
Defined.

(* ================================================================== *)
(** * Further properties of [splitText] *)

Lemma wrap64_le (x : Z) : MinInt <= x -> wrap64 x <= x.
Proof.
  unfold wrap64, MinInt. intros H.
  pose proof (Z.mod_le (x + 2 ^ 63) (2 ^ 64) ltac:(lia) ltac:(lia)). lia.
Qed.

Lemma splitLoop_bounded (fuel : nat) (s : gostring) (maxLen : Z) :
  forall (splits : list gostring) (l r : Z) (out : list gostring),
    splitLoop fuel s maxLen splits l r = Ok out ->
    0 <= l -> r <= l + maxLen ->
    0 <= maxLen /\
    exists chunks,
      out = splits ++ chunks /\ chunks <> [] /\
      Forall (fun c => len c <= maxLen) chunks.
Proof.
  induction fuel as [|fuel IH]; intros splits l r out H Hl Hr; [discriminate|].
  rewrite splitLoop_S in H. destruct (Z.ltb_spec r (len s)) as [Hlt|Hge].
  - apply rbind_Ok in H. destruct H as (r' & Hw & H).
    apply rbind_Ok in H. destruct H as (chunk & Hs & H).
    apply walkBack_Ok in Hw. destruct Hw as (Hr' & _).
    pose proof (slice_app_skipn _ _ _ Hs) as [_ Hlc].
    apply slice_Ok in Hs. destruct Hs as (Hlr & _ & _).
    apply IH in H; try lia.
    + destruct H as (Hm & chunks & -> & _ & Hall). split; [exact Hm|].
      exists (chunk :: chunks). split; [rewrite <- app_assoc; reflexivity|].
      split; [discriminate|]. constructor; [lia | exact Hall].
    + apply wrap64_le. unfold MinInt. lia.
  - apply rbind_Ok in H. destruct H as (chunk & Hs & H).
    inversion H; subst out.
    pose proof (slice_app_skipn _ _ _ Hs) as [_ Hlc].
    apply sliceFrom_Ok in Hs. destruct Hs as [Hls _].
    split; [lia|]. exists [chunk]. split; [reflexivity|].
    split; [discriminate|]. constructor; [lia | constructor].
Qed.

(** X1. Whatever the text, when [splitText] returns it returns at least one
    chunk and no chunk is longer than [maxLen] bytes. *)
Theorem splitText_chunks_fit
        (fuel : nat) (text : gostring) (maxLen : Z) (chunks : list gostring)
        (H : splitText fuel text maxLen = Ok chunks) :
  chunks <> [] /\ Forall (fun c => len c <= maxLen) chunks.
Proof.
  apply splitLoop_bounded in H; try lia.
  destruct H as (_ & chunks' & -> & Hne & Hall). auto.
Qed.

Lemma splitText_chunks_fit_witness :
  splitText 5 cont5 5 = Ok [cont5] /\
  [cont5] <> [] /\ Forall (fun c => len c <= 5) [cont5].
Proof.
  split; [reflexivity|].
  apply (@splitText_chunks_fit 5 cont5 5 [cont5]). reflexivity.
Defined.

(** X2. A text that fits the budget is returned as one chunk, unchanged,
    whatever its bytes: valid UTF-8 or not, empty or not. *)
Theorem splitText_short
        (fuel : nat) (text : gostring) (maxLen : Z)
        (Hfit : len text <= maxLen) :
  splitText (S fuel) text maxLen = Ok [text].
Proof.
  unfold splitText. rewrite splitLoop_S.
  destruct (Z.ltb_spec maxLen (len text)); [lia|].
  rewrite slice_whole. reflexivity.
Qed.

Lemma splitText_short_witness :
  len cont5 <= 7 /\ splitText 1 cont5 7 = Ok [cont5].
Proof.
  split; [vm_compute; discriminate|].
  apply splitText_short. vm_compute; discriminate.
Defined.

Lemma splitLoop_zero_diverges (fuel : nat) (b : ascii) (t : gostring) :
  RuneStart b = true ->
  forall splits : list gostring,
    splitLoop fuel (b :: t) 0 splits 0 0 = OutOfFuel.
Proof.
  intros Hb. induction fuel as [|fuel IH]; intros splits; [reflexivity|].
  rewrite splitLoop_S.
  destruct (Z.ltb_spec 0 (len (b :: t))) as [_|Hge];
    [|rewrite len_cons in Hge; pose proof (len_nonneg t); lia].
  rewrite (@walkBack_stop _ (b :: t) 0 b) by (auto; reflexivity).
  cbv beta iota delta [rbind].
  change (slice (b :: t) 0 0) with (@Ok gostring []).
  cbv beta iota.
  change (wrap64 (0 + 0)) with 0. apply IH.
Qed.

(** X3. A budget that is not positive is never usable: with [maxLen < 0]
    [splitText] panics on every text, the empty one included, and with
    [maxLen = 0] it never returns on a non-empty text: it loops for ever when
    the first byte starts a character and panics when it does not. *)
Theorem splitText_no_budget :
  (forall (fuel : nat) (text : gostring) (maxLen : Z),
      maxLen < 0 -> splitText (S fuel) text maxLen = Panic) /\
  (forall (b : ascii) (t : gostring),
      RuneStart b = true ->
      forall fuel : nat, splitText fuel (b :: t) 0 = OutOfFuel) /\
  (forall (b : ascii) (t : gostring),
      RuneStart b = false ->
      forall fuel : nat, splitText (S fuel) (b :: t) 0 = Panic).
Proof.
  split; [|split].
  - intros fuel text maxLen Hneg. unfold splitText. rewrite splitLoop_S.
    pose proof (len_nonneg text).
    destruct (Z.ltb_spec maxLen (len text)); [|lia].
    simpl. unfold index. destruct (Z.ltb_spec maxLen 0); [reflexivity | lia].
  - intros b t Hb fuel. apply splitLoop_zero_diverges. exact Hb.
  - intros b t Hb fuel. unfold splitText. rewrite splitLoop_S.
    destruct (Z.ltb_spec 0 (len (b :: t))) as [_|Hge];
      [|rewrite len_cons in Hge; pose proof (len_nonneg t); lia].
    change (walkBack (S (Z.to_nat 0)) (b :: t) 0)
      with (if RuneStart b then @Ok Z 0 else Panic).
    rewrite Hb. reflexivity.
Qed.

Lemma splitText_no_budget_witness :
  -1 < 0 /\ splitText 1 [] (-1) = Panic /\
  splitText 9 (str "ab") 0 = OutOfFuel.
Proof.
  split; [lia|].
  destruct splitText_no_budget as (Hneg & Hloop & _). split.
  - apply Hneg. lia.
  - apply (Hloop (ascii_of_nat 97) (str "b")). reflexivity.
Defined.

Lemma forallb_index (s : gostring) (r : Z) :
  forallb RuneStart s = true -> 0 <= r < len s ->
  exists b, index s r = Ok b /\ RuneStart b = true.
Proof.
  intros Hall Hr.
  destruct (nth_error s (Z.to_nat r)) as [b|] eqn:E.
  - exists b. split; [apply index_Ok; split; [lia | exact E]|].
    rewrite forallb_forall in Hall. apply Hall.
    eapply nth_error_In; eauto.
  - apply nth_error_None in E. unfold len in Hr. lia.
Qed.

Lemma splitLoop_plain (fuel : nat) (s : gostring) (maxLen : Z) :
  forallb RuneStart s = true -> 1 <= maxLen -> len s < 2 ^ 62 ->
  forall (splits : list gostring) (l : Z),
    0 <= l <= len s -> len s - l < Z.of_nat fuel ->
    exists chunks,
      splitLoop fuel s maxLen splits l (l + maxLen) = Ok (splits ++ chunks) /\
      Forall (fun c => len c = maxLen) (removelast chunks) /\
      len (lastChunk chunks) <= maxLen /\
      (l < len s -> 1 <= len (lastChunk chunks)) /\
      len chunks = chunkCount (len s - l) maxLen.
Proof.
  intros Hall Hmax Hlen.
  induction fuel as [|fuel IH]; intros splits l Hl Hfuel; [lia|].
  rewrite splitLoop_S. destruct (Z.ltb_spec (l + maxLen) (len s)) as [Hlt|Hge].
  - destruct (@forallb_index s (l + maxLen) Hall) as (b & Hb & Hrs); [lia|].
    rewrite (walkBack_stop _ _ _ Hb Hrs).
    cbv beta iota delta [rbind].
    destruct (slice s l (l + maxLen)) as [chunk| |] eqn:Hs.
    2,3: unfold slice in Hs;
      destruct (Z.leb_spec 0 l); destruct (Z.leb_spec l (l + maxLen));
      destruct (Z.leb_spec (l + maxLen) (len s)); simpl in Hs;
      try discriminate; lia.
    pose proof (slice_app_skipn _ _ _ Hs) as [_ Hlc].
    rewrite wrap64_id by (unfold MinInt, MaxInt; lia).
    destruct (IH (splits ++ [chunk]) (l + maxLen))
      as (chunks & Hrun & Hfull & Hlast & Hlast1 & Hcount); try lia.
    assert (Hne : chunks <> []).
    { intros ->. change (len (@nil gostring)) with 0 in Hcount.
      unfold chunkCount in Hcount. lia. }
    exists (chunk :: chunks). rewrite Hrun.
    split; [rewrite <- app_assoc; reflexivity|].
    destruct chunks as [|c chunks]; [congruence|].
    split; [|split; [|split]].
    + change (removelast (chunk :: c :: chunks))
        with (chunk :: removelast (c :: chunks)).
      constructor; [lia | exact Hfull].
    + exact Hlast.
    + intros _. apply Hlast1. lia.
    + rewrite len_cons.
      etransitivity; [apply (f_equal (fun z => z + 1) Hcount)|].
      unfold chunkCount.
      replace (len s - l + maxLen - 1)
        with ((len s - (l + maxLen) + maxLen - 1) + 1 * maxLen) by lia.
      rewrite Z.div_add by lia.
      assert (1 <= (len s - (l + maxLen) + maxLen - 1) / maxLen).
      { apply Z.div_le_lower_bound; lia. }
      lia.
  - destruct (sliceFrom s l) as [chunk| |] eqn:Hs.
    2,3: unfold sliceFrom, slice in Hs;
      destruct (Z.leb_spec 0 l); destruct (Z.leb_spec l (len s));
      destruct (Z.leb_spec (len s) (len s)); simpl in Hs; try discriminate; lia.
    pose proof (slice_app_skipn _ _ _ Hs) as [_ Hlc].
    cbv beta iota delta [rbind].
    exists [chunk]. split; [reflexivity|]. split; [constructor|].
    unfold lastChunk. simpl last. split; [lia|]. split; [lia|].
    change (len [chunk]) with 1. unfold chunkCount.
    assert ((len s - l + maxLen - 1) / maxLen <= 1).
    { apply Z.lt_succ_r. apply Z.div_lt_upper_bound; lia. }
    lia.
Qed.

(** X4. A text whose every byte starts a character (an ASCII text, say),
    shorter than [2^62] bytes, is cut with [maxLen >= 1] into
    [max(1, ceil(len / maxLen))] chunks: every chunk but the last has
    exactly [maxLen] bytes, and the last has at most [maxLen] and, unless the
    text is empty, at least one. *)
Theorem splitText_plain
        (fuel : nat) (text : gostring) (maxLen : Z)
        (Hplain : forallb RuneStart text = true) (Hmax : 1 <= maxLen)
        (Hlen : len text < 2 ^ 62) (Hfuel : len text < Z.of_nat fuel) :
  exists chunks,
    splitText fuel text maxLen = Ok chunks /\
    len chunks = chunkCount (len text) maxLen /\
    Forall (fun c => len c = maxLen) (removelast chunks) /\
    len (lastChunk chunks) <= maxLen /\
    (text <> [] -> 1 <= len (lastChunk chunks)).
Proof.
  pose proof (len_nonneg text) as Hn.
  destruct (@splitLoop_plain fuel text maxLen Hplain Hmax Hlen [] 0)
    as (chunks & Hrun & Hfull & Hlast & Hlast1 & Hcount); try lia.
  exists chunks. split; [exact Hrun|].
  split; [rewrite Hcount; f_equal; lia|].
  split; [exact Hfull|]. split; [exact Hlast|].
  intros Hne. apply Hlast1. destruct text; [congruence|].
  rewrite len_cons. pose proof (len_nonneg text). lia.
Qed.

Lemma splitText_plain_witness :
  forallb RuneStart (str "abcdefghijklm") = true /\ 1 <= 4 /\
  exists chunks,
    splitText 14 (str "abcdefghijklm") 4 = Ok chunks /\ len chunks = 4.
Proof.
  split; [reflexivity|]. split; [lia|].
  destruct (@splitText_plain 14 (str "abcdefghijklm") 4)
    as (chunks & Hrun & Hcount & _).
  - reflexivity.
  - lia.
  - vm_compute; reflexivity.
  - vm_compute; reflexivity.
  - exists chunks. split; [exact Hrun|]. rewrite Hcount. reflexivity.
Defined.

(* ================================================================== *)
(** * Further properties of the escaping *)

Lemma escapeByte_special (c : ascii) :
  isSpecial c = true -> escapeByte c = [backslash; if Ascii.eqb c newline then letter_n else c].
Proof.
  unfold isSpecial, escapeByte.
  destruct (Ascii.eqb_spec c backslash) as [->|Hb]; [reflexivity|].
  destruct (Ascii.eqb_spec c newline) as [->|Hn]; [reflexivity|].
  destruct (Ascii.eqb_spec c dquote) as [->|Hq]; [reflexivity|].
  discriminate.
Qed.

Lemma escapeByte_not_special (c : ascii) :
  isSpecial c = false -> escapeByte c = [c].
Proof.
  unfold isSpecial. intros H.
  apply orb_false_iff in H. destruct H as [H Hq].
  apply orb_false_iff in H. destruct H as [Hb Hn].
  apply escapeByte_plain.
  - intros ->. rewrite Ascii.eqb_refl in Hb. discriminate.
  - intros ->. rewrite Ascii.eqb_refl in Hn. discriminate.
  - intros ->. rewrite Ascii.eqb_refl in Hq. discriminate.
Qed.

(** X5. The escaping works byte by byte: the escape of a concatenation is
    the concatenation of the escapes. *)
Theorem escape_app (a b : gostring) : escape (a ++ b) = escape a ++ escape b.
Proof. rewrite !escape_flat_map. apply flat_map_app. Qed.

Lemma escapeByte_length (text : gostring) :
  len (flat_map escapeByte text) = len text + len (filter isSpecial text).
Proof.
  induction text as [|c t IH]; [reflexivity|].
  change (flat_map escapeByte (c :: t))
    with (escapeByte c ++ flat_map escapeByte t).
  rewrite len_app, len_cons, IH.
  change (filter isSpecial (c :: t))
    with (if isSpecial c then c :: filter isSpecial t else filter isSpecial t).
  destruct (isSpecial c) eqn:Hc.
  - rewrite (escapeByte_special _ Hc), !len_cons.
    change (len (@nil ascii)) with 0. lia.
  - rewrite (escapeByte_not_special _ Hc), len_cons.
    change (len (@nil ascii)) with 0. lia.
Qed.

(** X6. Each backslash, newline and double quote of the text costs exactly
    one more byte, and nothing else does. *)
Theorem escape_length (text : gostring) :
  len (escape text) = len text + countSpecial text.
Proof.
  rewrite escape_flat_map. unfold countSpecial.
  apply escapeByte_length.
Qed.

(** X7. The escaping loses nothing: two texts with the same escape are the
    same text. *)
Theorem escape_injective (a b : gostring) (H : escape a = escape b) : a = b.
Proof.
  rewrite <- (unescape_escape a), <- (unescape_escape b), H. reflexivity.
Qed.

Lemma escape_injective_witness :
  escape sample = escape sample /\ sample = sample.
Proof.
  split; [reflexivity|]. apply escape_injective. reflexivity.
Defined.






(** X9. A text is sent as it is exactly when it holds no backslash, newline
    or double quote. *)
Theorem escape_identity (text : gostring) :
  escape text = text <-> countSpecial text = 0.
Proof.
  split.
  - intros H. pose proof (escapeByte_length text) as Hl.
    rewrite <- escape_flat_map, H in Hl. unfold countSpecial. lia.
  - intros H. rewrite escape_flat_map. unfold countSpecial in H.
    induction text as [|c t IH]; [reflexivity|].
    simpl in H. simpl flat_map.
    destruct (isSpecial c) eqn:Hc.
    + rewrite len_cons in H. pose proof (len_nonneg (filter isSpecial t)). lia.
    + rewrite (escapeByte_not_special _ Hc), IH by exact H. reflexivity.
Qed.

(* ================================================================== *)
(** * Further properties of [Push] and [Pop] *)



(** X11. A text whose escape fits half the command size is pushed as one
    line, [PUSH collection bucket object] and the escaped text between
    quotes, whatever its bytes; the empty text gives the line with an empty
    payload. *)
Theorem Push_one_line
        (d : driver) (fuel : nat) (collection bucket object text : gostring)
        (w : world)
        (Hfit : len (escape text) <= Z.quot (cmdMaxBytes d) 2) :
  exists (r : option error) (w' : world),
    Push d (S fuel) collection bucket object text w = Ok (r, w') /\
    sent w' = sent w ++ [cmdLine push collection bucket object (escape text)].
Proof.
  unfold Push, bind, lift, pushChunks, splitText. rewrite splitLoop_S.
  destruct (Z.ltb_spec (Z.quot (cmdMaxBytes d) 2) (len (escape text))); [lia|].
  rewrite slice_whole. cbv beta iota delta [rbind]. simpl app.
  destruct (pushLoop_sent collection bucket object [escape text] w)
    as (r & w' & n & Hrun & Hn & Hs & _ & Hall & Hone).
  exists r, w'. split; [exact Hrun|].
  rewrite Hs. f_equal.
  assert (n = 1%nat).
  { destruct r as [e|]; [|apply Hall; reflexivity].
    assert (1 <= n)%nat by (apply Hone; discriminate). simpl in Hn. lia. }
  subst n. reflexivity.
Qed.

Lemma Push_one_line_witness :
  len (escape []) <= Z.quot 20000 2 /\
  exists (r : option error) (w' : world),
    Push (mkDriver 20000 Panic) 1 (str "c") (str "b") (str "o") []
         (mkWorld [] [] []) = Ok (r, w') /\
    sent w' = [cmdLine push (str "c") (str "b") (str "o") []].
Proof.
  split; [vm_compute; discriminate|].
  apply (@Push_one_line (mkDriver 20000 Panic) 0 (str "c") (str "b") (str "o")
                        [] (mkWorld [] [] [])).
  vm_compute; discriminate.
Defined.

(** X12. In [BulkPop] a worker that has a connection treats a record as
    [Pop] would: the same line, unescaped and in one piece, the same
    acknowledgement, and the error of [Pop], if any, as the one error of the
    record. *)
Theorem bulkPopRecord_is_Pop
        (d : driver) (collection bucket : gostring) (rec : IngestBulkRecord)
        (w : world) :
  bulkPopRecord d collection bucket true rec w =
  (err <-- Pop collection bucket (Object rec) (Text rec) ;;;
   match err with
   | Some e => addBulkError rec e
   | None => ret tt
   end) w.
Proof.
  unfold bulkPopRecord, Pop, connWrite, connRead, bind, ret.
  destruct (write_Ok (cmdLine pop collection bucket (Object rec) (Text rec)) w)
    as (o & w1 & Hw & _).
  rewrite Hw. destruct o as [e|]; [reflexivity|].
  unfold read. destruct (outcome_Ok w1) as (o & w2 & Ho & _).
  rewrite Ho. destruct o; reflexivity.
Qed.

(** X13. In [BulkPush] a worker that has a connection reads once more
    after a [Push] that succeeded: for a text of one chunk it uses three
    answers of the transport, the write and the read of [Push] and one more
    read, and an error of that last read is reported for the record although
    its text was pushed and acknowledged. *)
Theorem bulkPushRecord_reads_twice
        (d : driver) (fuel : nat) (collection bucket : gostring)
        (rec : IngestBulkRecord) (o : option error)
        (rest : list (option error)) (lines : list gostring)
        (errors : list IngestBulkError)
        (Hfit : len (escape (Text rec)) <= Z.quot (cmdMaxBytes d) 2) :
  bulkPushRecord d (S fuel) collection bucket true rec
                 (mkWorld (None :: None :: o :: rest) lines errors)
  = Ok (tt, mkWorld rest
                    (lines ++ [cmdLine push collection bucket (Object rec)
                                       (escape (Text rec))])
                    (errors ++ match o with
                               | Some e => [mkBulkError (Object rec) e]
                               | None => []
                               end)).
Proof.
  unfold bulkPushRecord, Push, bind, lift, ret, pushChunks, splitText.
  rewrite splitLoop_S.
  destruct (Z.ltb_spec (Z.quot (cmdMaxBytes d) 2) (len (escape (Text rec))));
    [lia|].
  rewrite slice_whole. cbv beta iota delta [rbind]. simpl.
  destruct o as [e|]; simpl; [reflexivity|].
  rewrite app_nil_r. reflexivity.
Qed.

Lemma bulkPushRecord_reads_twice_witness :
  len (escape (Text recA)) <= Z.quot 20000 2 /\
  bulkPushRecord (mkDriver 20000 Panic) 1 (str "c") (str "b") true recA
                 (mkWorld [None; None; Some ErrClosed] [] [])
  = Ok (tt, mkWorld [] [cmdLine push (str "c") (str "b") (str "A") (str "x")]
                    [mkBulkError (str "A") ErrClosed]).
Proof.
  split; [vm_compute; discriminate|].
  apply (@bulkPushRecord_reads_twice (mkDriver 20000 Panic) 0 (str "c") (str "b")
                                     recA (Some ErrClosed) [] [] []).
  vm_compute; discriminate.
Defined.

(* ================================================================== *)
(** * Further properties of the partitioner *)

Lemma divideLoop_sound (A : Type) (fuel : nat) (records : list A) (cs : Z) :
  forall (divided : list (list A)) (i : Z) (out : list (list A)),
    divideLoop fuel records cs divided i = Ok out -> 0 <= i ->
    exists parts,
      out = divided ++ parts /\
      List.concat parts = skipn (Z.to_nat i) records.
Proof.
  induction fuel as [|fuel IH]; intros divided i out H Hi; [discriminate|].
  rewrite divideLoop_S in H.
  destruct (Z.ltb_spec i (len records)) as [Hlt|Hge].
  - apply rbind_Ok in H. destruct H as (part & Hs & H).
    pose proof (slice_app_skipn _ _ _ Hs) as [Happ _].
    apply slice_Ok in Hs. destruct Hs as (Hlo & Hhi & _).
    rewrite Z.gtb_ltb in Happ, Hlo, Hhi.
    destruct (Z.ltb_spec (len records) (wrap64 (i + cs))) as [Hbig|Hsmall].
    + apply IH in H; [|lia]. destruct H as (parts & -> & Hcat).
      exists (part :: parts). split; [rewrite <- app_assoc; reflexivity|].
      simpl. rewrite Hcat, <- Happ.
      rewrite !skipn_nil_len by lia. reflexivity.
    + apply IH in H; [|lia]. destruct H as (parts & -> & Hcat).
      exists (part :: parts). split; [rewrite <- app_assoc; reflexivity|].
      simpl. rewrite Hcat. exact Happ.
  - inversion H; subst out. exists []. split; [rewrite app_nil_r; reflexivity|].
    simpl. rewrite skipn_nil_len by lia. reflexivity.
Qed.

Lemma divideIngestBulkRecords_sound (A : Type) (fuel : nat) (records : list A)
      (p : Z) (parts : list (list A)) :
  divideIngestBulkRecords fuel records p = Ok parts ->
  List.concat parts = records.
Proof.
  unfold divideIngestBulkRecords. intros H.
  apply rbind_Ok in H. destruct H as (cs & _ & H).
  apply divideLoop_sound in H; [|lia].
  destruct H as (parts' & -> & Hcat). exact Hcat.
Qed.

(** X14. Whatever [parallelRoutines] is, negative, or so large that the
    chunk size computation wraps around, when [divideIngestBulkRecords]
    returns, the partitions it returns concatenate to the record list: no
    record is lost, repeated or moved. *)
Theorem divideIngestBulkRecords_keeps_records
        (A : Type) (fuel : nat) (records : list A) (p : Z)
        (parts : list (list A))
        (H : divideIngestBulkRecords fuel records p = Ok parts) :
  List.concat parts = records /\
  list_sum (map (@List.length A) parts) = List.length records.
Proof.
  apply divideIngestBulkRecords_sound in H. split; [exact H|].
  rewrite <- H. symmetry. apply length_concat.
Qed.

Lemma divideIngestBulkRecords_keeps_records_witness :
  divideIngestBulkRecords 2 [recA] (-3) = Ok [[recA]] /\
  List.concat [[recA]] = [recA].
Proof.
  split; [vm_compute; reflexivity|].
  apply (@divideIngestBulkRecords_keeps_records _ 2 [recA] (-3) [[recA]]).
  vm_compute; reflexivity.
Defined.

(** X15. The partitions are balanced but for the last: under the conditions
    of the partition theorem, every partition but the last has exactly
    [chunkSize = ceil(len(records) / p)] records, and the last has between
    one and [chunkSize]. *)
Theorem divideIngestBulkRecords_sizes
        (A : Type) (fuel : nat) (records : list A) (p : Z)
        (Hp : 1 <= p) (Hlen : len records < 2 ^ 62)
        (Hov : len records + p - 1 <= MaxInt)
        (Hfuel : len records < Z.of_nat fuel) :
  exists parts,
    divideIngestBulkRecords fuel records p = Ok parts /\
    forall (k : nat) (part : list A),
      nth_error parts k = Some part ->
      1 <= len part <= chunkSizeOf (len records) p /\
      (Z.of_nat k + 1 < len parts ->
       len part = chunkSizeOf (len records) p).
Proof.
  destruct (@divideIngestBulkRecords_spec A fuel records p Hp Hlen Hov Hfuel)
    as (parts & Hrun & Hcat & Hnth & Hcount).
  exists parts. split; [exact Hrun|].
  intros k part Hk.
  assert (Hne : records <> []).
  { intros ->. destruct parts as [|q parts]; [destruct k; discriminate|].
    destruct (Hnth 0%nat q eq_refl) as [_ Hq].
    simpl in Hcat. apply app_eq_nil in Hcat. destruct Hcat. congruence. }
  destruct (Hcount Hne) as [Hcs Hn].
  destruct (Hnth k part Hk) as [Hs Hpne].
  apply slice_app_skipn in Hs. destruct Hs as [_ Hl].
  assert (Hkn : Z.of_nat k < len parts).
  { assert (nth_error parts k <> None) as Hx by congruence.
    apply nth_error_Some in Hx. unfold len. lia. }
  remember (chunkSizeOf (len records) p) as cs eqn:Ecs. clear Ecs.
  pose proof (Z.div_mod (len records + cs - 1) cs ltac:(lia)) as Hd.
  pose proof (Z.mod_pos_bound (len records + cs - 1) cs ltac:(lia)) as Hm.
  rewrite Hn in Hkn. rewrite Hn.
  split.
  - split.
    + destruct part; [congruence|]. rewrite len_cons.
      pose proof (len_nonneg part). lia.
    + lia.
  - intros Hk1. rewrite Hl. rewrite Z.min_l; [lia | nia].
Qed.

Lemma divideIngestBulkRecords_sizes_witness :
  1 <= 2 /\
  exists parts,
    divideIngestBulkRecords 4 [recA; recB; recC] 2 = Ok parts /\
    forall part, nth_error parts 0 = Some part -> len part = 2.
Proof.
  split; [lia|].
  destruct (@divideIngestBulkRecords_sizes _ 4 [recA; recB; recC] 2)
    as (parts & Hrun & Hsize).
  - lia.
  - vm_compute; reflexivity.
  - vm_compute; discriminate.
  - vm_compute; reflexivity.
  - exists parts. split; [exact Hrun|].
    intros part Hpart. destruct (Hsize 0%nat part Hpart) as [_ Hfull].
    rewrite Hfull; [reflexivity|].
    vm_compute in Hrun. inversion Hrun. vm_compute; reflexivity.
Defined.

(** X16. A batch whose size is a multiple of the parallelism is divided
    evenly: [p * q] records, with [p >= 1] and [q >= 1], give exactly [p]
    partitions of [q] records each. *)
Theorem divideIngestBulkRecords_even
        (A : Type) (fuel : nat) (records : list A) (p q : Z)
        (Hp : 1 <= p) (Hq : 1 <= q) (Hmul : len records = p * q)
        (Hlen : len records < 2 ^ 62)
        (Hfuel : len records < Z.of_nat fuel) :
  exists parts,
    divideIngestBulkRecords fuel records p = Ok parts /\
    len parts = p /\
    Forall (fun part => len part = q) parts.
Proof.
  assert (Hov : len records + p - 1 <= MaxInt) by (unfold MaxInt; nia).
  destruct (@divideIngestBulkRecords_spec A fuel records p Hp Hlen Hov Hfuel)
    as (parts & Hrun & Hcat & Hnth & Hcount).
  assert (Hne : records <> []).
  { intros ->. change (len (@nil A)) with 0 in Hmul. nia. }
  destruct (Hcount Hne) as [_ Hn].
  assert (Hcs : chunkSizeOf (len records) p = q).
  { unfold chunkSizeOf. rewrite Hmul. symmetry.
    apply Z.div_unique with (r := p - 1); lia. }
  rewrite Hcs in Hn, Hnth.
  assert (Hparts : len parts = p).
  { rewrite Hn, Hmul. symmetry.
    apply Z.div_unique with (r := q - 1); lia. }
  exists parts. split; [exact Hrun|]. split; [exact Hparts|].
  apply Forall_forall. intros part Hin.
  apply In_nth_error in Hin. destruct Hin as [k Hk].
  assert (Hkn : Z.of_nat k < p).
  { assert (nth_error parts k <> None) as Hx by congruence.
    apply nth_error_Some in Hx. unfold len in Hparts. lia. }
  destruct (Hnth k part Hk) as [Hs _].
  apply slice_app_skipn in Hs. destruct Hs as [_ Hl].
  rewrite Hl. rewrite Z.min_l; [lia | nia].
Qed.

Lemma divideIngestBulkRecords_even_witness :
  len [recA; recB; recC; recD] = 2 * 2 /\
  exists parts,
    divideIngestBulkRecords 5 [recA; recB; recC; recD] 2 = Ok parts /\
    len parts = 2.
Proof.
  split; [reflexivity|].
  destruct (@divideIngestBulkRecords_even _ 5 [recA; recB; recC; recD] 2 2)
    as (parts & Hrun & Hn & _).
  - lia.
  - lia.
  - reflexivity.
  - vm_compute; reflexivity.
  - vm_compute; reflexivity.
  - exists parts. split; assumption.
Defined.

(* ================================================================== *)
(** * Further properties of [BulkPush] and [BulkPop] *)

Lemma recordLog_nil (k : nat) (rec : IngestBulkRecord) (w w' : world) :
  errs w' = errs w -> recordLog k rec w w'.
Proof.
  intros H. exists []. rewrite app_nil_r. split; [exact H|].
  split; [simpl; lia | constructor].
Qed.

Lemma recordLog_one (k : nat) (rec : IngestBulkRecord) (w w' : world) (e : error) :
  (1 <= k)%nat -> errs w' = errs w ++ [mkBulkError (Object rec) e] ->
  recordLog k rec w w'.
Proof.
  intros Hk H. exists [mkBulkError (Object rec) e]. split; [exact H|].
  split; [simpl; lia|]. constructor; [reflexivity | constructor].
Qed.

Lemma recordLog_two (rec : IngestBulkRecord) (w w' : world) (e1 e2 : error) :
  errs w' = (errs w ++ [mkBulkError (Object rec) e1])
              ++ [mkBulkError (Object rec) e2] ->
  recordLog 2 rec w w'.
Proof.
  intros H. exists [mkBulkError (Object rec) e1; mkBulkError (Object rec) e2].
  rewrite <- app_assoc in H. split; [exact H|].
  split; [simpl; lia|]. repeat constructor.
Qed.

Lemma bulkPushRecord_log (d : driver) (fuel : nat) (collection bucket : gostring)
      (conn : bool) (rec : IngestBulkRecord) (w w' : world) :
  bulkPushRecord d fuel collection bucket conn rec w = Ok (tt, w') ->
  recordLog (perRecord conn) rec w w'.
Proof.
  destruct conn.
  - intros H. apply bulkPushRecord_open in H. destruct H as [H|[e H]].
    + apply recordLog_nil. exact H.
    + apply recordLog_one with (e := e); [simpl; lia | exact H].
  - unfold bulkPushRecord, Push. unfold bind at 1. unfold addBulkError at 1.
    unfold bind at 1. unfold bind at 1. unfold lift at 1.
    destruct (pushChunks fuel (cmdMaxBytes d) (Text rec)) as [chunks| |];
      try discriminate.
    set (w0 := mkWorld (tape w) (sent w)
                       (errs w ++ [mkBulkError (Object rec) ErrClosed])).
    destruct (pushLoop_sent collection bucket (Object rec) chunks w0)
      as (r & w1 & n & Hrun & _ & _ & He & _).
    rewrite Hrun. simpl in He. destruct r as [e|].
    + unfold addBulkError. intros H. inversion H; subst w'. simpl.
      apply recordLog_two with (e1 := ErrClosed) (e2 := e). simpl.
      rewrite He. reflexivity.
    + unfold connRead, bind, lift.
      destruct (nilCall d) as [[e|]| |]; try discriminate.
      * unfold addBulkError. intros H. inversion H; subst w'.
        apply recordLog_two with (e1 := ErrClosed) (e2 := e). simpl.
        rewrite He. reflexivity.
      * unfold ret. intros H. inversion H; subst w'.
        apply recordLog_one with (e := ErrClosed); [simpl; lia | exact He].
Qed.

Lemma bulkPopRecord_log (d : driver) (collection bucket : gostring)
      (conn : bool) (rec : IngestBulkRecord) (w w' : world) :
  bulkPopRecord d collection bucket conn rec w = Ok (tt, w') ->
  recordLog (perRecord conn) rec w w'.
Proof.
  destruct conn.
  - unfold bulkPopRecord, connWrite, connRead. unfold bind at 1. unfold ret at 1.
    unfold bind at 1.
    destruct (write_Ok (cmdLine pop collection bucket (Object rec) (Text rec)) w)
      as (o & w1 & Hw & _ & He1 & _).
    rewrite Hw. destruct o as [e|].
    + unfold addBulkError. intros H. inversion H; subst w'.
      apply recordLog_one with (e := e); [simpl; lia|]. simpl.
      rewrite He1. reflexivity.
    + unfold bind, read.
      destruct (outcome_Ok w1) as (o & w2 & Ho & _ & He2 & _).
      rewrite Ho. destruct o as [e|].
      * unfold addBulkError. intros H. inversion H; subst w'.
        apply recordLog_one with (e := e); [simpl; lia|]. simpl.
        rewrite He2, He1. reflexivity.
      * unfold ret. intros H. inversion H; subst w'.
        apply recordLog_nil. rewrite He2, He1. reflexivity.
  - unfold bulkPopRecord, connWrite, connRead. unfold bind at 1.
    unfold addBulkError at 1. unfold bind, lift.
    destruct (nilCall d) as [[e|]| |]; try discriminate.
    + unfold addBulkError. intros H. inversion H; subst w'.
      apply recordLog_two with (e1 := ErrClosed) (e2 := e). reflexivity.
    + unfold ret. intros H. inversion H; subst w'.
      apply recordLog_one with (e := ErrClosed); [simpl; lia | reflexivity].
Qed.

Lemma forEach_log (k : nat) (body : IngestBulkRecord -> IO unit) :
  (forall rec w w', body rec w = Ok (tt, w') -> recordLog k rec w w') ->
  forall (recs : list IngestBulkRecord) (w w' : world),
    forEach recs body w = Ok (tt, w') ->
    exists log, errs w' = errs w ++ log /\ workerLog k recs log.
Proof.
  intros Hbody. induction recs as [|rec recs IH]; intros w w' H.
  - simpl in H. unfold ret in H. inversion H; subst w'.
    exists []. rewrite app_nil_r. split; [reflexivity|].
    split; [simpl; lia | constructor].
  - simpl in H. unfold bind in H.
    destruct (body rec w) as [[[] w1]| |] eqn:Hb; try discriminate.
    apply Hbody in Hb. destruct Hb as (log1 & He1 & Hl1 & Ho1).
    apply IH in H. destruct H as (log2 & He2 & Hl2 & Ho2).
    exists (log1 ++ log2). split; [rewrite He2, He1, app_assoc; reflexivity|].
    split.
    + rewrite length_app. simpl. lia.
    + apply Forall_app. split.
      * eapply Forall_impl; [|exact Ho1]. simpl. intros e He. left. auto.
      * eapply Forall_impl; [|exact Ho2]. simpl. intros e He. right. exact He.
Qed.

Lemma newConnection_Ok (t : list (option error)) :
  exists w1, newConnection (mkWorld t [] []) = Ok (connects t, w1) /\
             errs w1 = [].
Proof.
  unfold newConnection, bind, outcome, ret. simpl.
  destruct t as [|[e|] t]; simpl; eexists; split; reflexivity.
Qed.

Lemma bulkPushWorker_spec (d : driver) (fuel : nat) (collection bucket : gostring) :
  workerSpec (bulkPushWorker d fuel collection bucket).
Proof.
  intros t recs [[] w'] H. unfold bulkPushWorker in H. unfold bind at 1 in H.
  destruct (newConnection_Ok t) as (w1 & Hc & He1). rewrite Hc in H.
  unfold bind, connClose, ret in H.
  destruct (forEach recs (bulkPushRecord d fuel collection bucket (connects t)) w1)
    as [[[] w2]| |] eqn:Hf; try discriminate.
  inversion H; subst w2.
  apply forEach_log with (k := perRecord (connects t)) in Hf.
  - destruct Hf as (log & He & Hlog). simpl. rewrite He, He1. exact Hlog.
  - intros rec w0 w0'. apply bulkPushRecord_log.
Qed.

Lemma bulkPopWorker_spec (d : driver) (collection bucket : gostring) :
  workerSpec (bulkPopWorker d collection bucket).
Proof.
  intros t recs [[] w'] H. unfold bulkPopWorker in H. unfold bind at 1 in H.
  destruct (newConnection_Ok t) as (w1 & Hc & He1). rewrite Hc in H.
  unfold bind, connClose, ret in H.
  destruct (forEach recs (bulkPopRecord d collection bucket (connects t)) w1)
    as [[[] w2]| |] eqn:Hf; try discriminate.
  inversion H; subst w2.
  apply forEach_log with (k := perRecord (connects t)) in Hf.
  - destruct Hf as (log & He & Hlog). simpl. rewrite He, He1. exact Hlog.
  - intros rec w0 w0'. apply bulkPopRecord_log.
Qed.

Lemma spawn_log (worker : list IngestBulkRecord -> IO unit) (K : nat) :
  workerSpec worker -> (1 <= K)%nat ->
  forall (divided : list (list IngestBulkRecord))
         (tapes : list (list (option error)))
         (logs : list (list IngestBulkError)),
    Forall (fun t => (perRecord (connects t) <= K)%nat) tapes ->
    spawn worker tapes divided = Ok logs ->
    workerLog K (List.concat divided) (List.concat logs).
Proof.
  intros Hspec HK. induction divided as [|recs divided IH];
    intros tapes logs Ht H.
  - simpl in H. inversion H; subst logs. split; [simpl; lia | constructor].
  - simpl in H. apply rbind_Ok in H. destruct H as (out & Hw & H).
    apply rbind_Ok in H. destruct H as (logs' & Hs & H).
    inversion H; subst logs.
    apply Hspec in Hw. destruct Hw as [Hl1 Ho1].
    assert (Hk : (perRecord (connects (hd [] tapes)) <= K)%nat).
    { destruct tapes as [|t tapes]; [simpl; lia|]. inversion Ht; assumption. }
    apply IH in Hs.
    + destruct Hs as [Hl2 Ho2]. split.
      * simpl. rewrite !length_app.
        assert (perRecord (connects (hd [] tapes)) * List.length recs
                <= K * List.length recs)%nat by (apply Nat.mul_le_mono_r; exact Hk).
        lia.
      * simpl. apply Forall_app. split.
        -- eapply Forall_impl; [|exact Ho1]. simpl. intros e He.
           rewrite map_app. apply in_or_app. left. exact He.
        -- eapply Forall_impl; [|exact Ho2]. simpl. intros e He.
           rewrite map_app. apply in_or_app. right. exact He.
    + destruct tapes as [|t tapes]; [constructor|]. inversion Ht; assumption.
Qed.

Lemma perRecord_le_2 (tapes : list (list (option error))) :
  Forall (fun t => (perRecord (connects t) <= 2)%nat) tapes.
Proof.
  apply Forall_forall. intros t _. destruct (connects t); simpl; lia.
Qed.

Lemma perRecord_connects (tapes : list (list (option error))) :
  Forall (fun t => connects t = true) tapes ->
  Forall (fun t => (perRecord (connects t) <= 1)%nat) tapes.
Proof.
  intros H. eapply Forall_impl; [|exact H]. simpl. intros t ->. simpl. lia.
Qed.

Lemma bulk_log (worker : list IngestBulkRecord -> IO unit)
      (fuel : nat) (sched : list nat) (tapes : list (list (option error)))
      (p : Z) (records : list IngestBulkRecord) (errors : list IngestBulkError) :
  workerSpec worker ->
  (divided <- bulkDivided fuel p records ;;
   logs <- spawn worker tapes divided ;;
   Ok (interleave sched logs)) = Ok errors ->
  len errors <= 2 * len records /\
  Forall (fun e => In (ErrObject e) (map Object records)) errors /\
  (Forall (fun t => connects t = true) tapes -> len errors <= len records).
Proof.
  intros Hspec H.
  apply rbind_Ok in H. destruct H as (divided & Hd & H).
  apply rbind_Ok in H. destruct H as (logs & Hs & H).
  inversion H; subst errors.
  apply divideIngestBulkRecords_sound in Hd.
  pose proof (interleave_Permutation sched logs) as HP.
  pose proof (spawn_log Hspec (K := 2) ltac:(lia) _ (perRecord_le_2 tapes) Hs)
    as [Hl2 Ho].
  rewrite Hd in Hl2, Ho.
  split; [|split].
  - unfold len. rewrite (Permutation_length HP). lia.
  - eapply Permutation_Forall; [symmetry; exact HP | exact Ho].
  - intros Hopen.
    pose proof (spawn_log Hspec (K := 1) ltac:(lia) _
                          (perRecord_connects Hopen) Hs) as [Hl1 _].
    rewrite Hd in Hl1.
    unfold len. rewrite (Permutation_length HP). lia.
Qed.

(** X17. Whatever the transport does, when [BulkPush] or [BulkPop] returns,
    every error it returns names the object of a record of the batch, there
    are at most two errors a record, and at most one a record when every
    worker got its connection. *)
Theorem Bulk_errors_bounded
        (d : driver) (fuel : nat) (sched : list nat)
        (tapes : list (list (option error)))
        (collection bucket : gostring) (p : Z)
        (records : list IngestBulkRecord) (errors : list IngestBulkError)
        (H : BulkPush d fuel sched tapes collection bucket p records = Ok errors
             \/ BulkPop d fuel sched tapes collection bucket p records = Ok errors) :
  len errors <= 2 * len records /\
  Forall (fun e => In (ErrObject e) (map Object records)) errors /\
  (Forall (fun t => connects t = true) tapes -> len errors <= len records).
Proof.
  destruct H as [H|H].
  - unfold BulkPush in H. eapply bulk_log; [|exact H].
    apply bulkPushWorker_spec.
  - unfold BulkPop in H. eapply bulk_log; [|exact H].
    apply bulkPopWorker_spec.
Qed.

Lemma Bulk_errors_bounded_witness :
  BulkPop (mkDriver 20000 Panic) 3 [] [[None; Some ErrClosed]]
          (str "c") (str "b") 1 [recA; recB]
  = Ok [mkBulkError (str "A") ErrClosed] /\
  len [mkBulkError (str "A") ErrClosed] <= len [recA; recB].
Proof.
  split; [vm_compute; reflexivity|].
  destruct (@Bulk_errors_bounded (mkDriver 20000 Panic) 3 [] [[None; Some ErrClosed]]
                                 (str "c") (str "b") 1 [recA; recB]
                                 [mkBulkError (str "A") ErrClosed])
    as (_ & _ & Hone).
  - right. vm_compute; reflexivity.
  - apply Hone. repeat constructor.
Defined.

Lemma outcome_allNil (w : world) :
  allNil (tape w) ->
  exists w', outcome w = Ok (None, w') /\
             sent w' = sent w /\ errs w' = errs w /\ allNil (tape w').
Proof.
  intros Hn. destruct (outcome_Ok w) as (o & w' & Ho & Hs & He & Hnil & Hcons).
  destruct (tape w) as [|o1 t] eqn:E.
  - destruct (Hnil eq_refl) as [-> Ht]. exists w'. rewrite Ht.
    split; [exact Ho|]. split; [exact Hs|]. split; [exact He | constructor].
  - destruct (Hcons o1 t eq_refl) as [Ho1 Ht].
    inversion Hn as [|o2 t2 Hnone Hrest]. rewrite Ho1, Hnone in Ho.
    exists w'. rewrite Ht.
    split; [exact Ho|]. split; [exact Hs|]. split; [exact He | exact Hrest].
Qed.

Lemma write_allNil (line : gostring) (w : world) :
  allNil (tape w) ->
  exists w', write line w = Ok (None, w') /\
             errs w' = errs w /\ allNil (tape w').
Proof.
  intros Hn. unfold write.
  destruct (@outcome_allNil (mkWorld (tape w) (sent w ++ [line]) (errs w)) Hn)
    as (w' & Ho & _ & He & Ht).
  exists w'. auto.
Qed.




Lemma bulkPopRecord_quiet (d : driver) (collection bucket : gostring)
      (rec : IngestBulkRecord) :
  quiet (bulkPopRecord d collection bucket true) rec.
Proof.
  intros w Hn.
  unfold bulkPopRecord, connWrite, connRead. unfold bind at 1. unfold ret at 1.
  unfold bind at 1.
  destruct (@write_allNil (cmdLine pop collection bucket (Object rec) (Text rec)) w Hn)
    as (w1 & Hw & He1 & Hn1).
  rewrite Hw. unfold bind, read.
  destruct (@outcome_allNil w1 Hn1) as (w2 & Ho & _ & He2 & Hn2).
  rewrite Ho. exists w2. unfold ret. split; [reflexivity|].
  split; [congruence | exact Hn2].
Qed.

Lemma forEach_quiet (body : IngestBulkRecord -> IO unit) :
  forall (recs : list IngestBulkRecord) (w : world),
    Forall (quiet body) recs -> allNil (tape w) ->
    exists w', forEach recs body w = Ok (tt, w') /\ errs w' = errs w.
Proof.
  induction recs as [|rec recs IH]; intros w Hq Hn.
  - exists w. auto.
  - inversion Hq; subst. simpl. unfold bind.
    destruct (H1 w Hn) as (w1 & Hb & He1 & Hn1). rewrite Hb.
    destruct (IH w1 H2 Hn1) as (w' & Hf & He). exists w'.
    split; [exact Hf | congruence].
Qed.

Lemma spawn_quiet (worker : list IngestBulkRecord -> IO unit)
      (body : bool -> IngestBulkRecord -> IO unit) :
  (forall recs, worker recs =
                (conn <-- newConnection ;;;
                 forEach recs (body conn) >>> connClose conn)) ->
  forall (divided : list (list IngestBulkRecord))
         (tapes : list (list (option error))),
    Forall allNil tapes ->
    Forall (Forall (quiet (body true))) divided ->
    exists logs, spawn worker tapes divided = Ok logs /\ List.concat logs = [].
Proof.
  intros Hworker. induction divided as [|recs divided IH]; intros tapes Ht Hq.
  - exists []. auto.
  - inversion Hq; subst. simpl.
    assert (Hhd : allNil (hd [] tapes)).
    { destruct tapes; [constructor | inversion Ht; assumption]. }
    assert (Htl : Forall allNil (tl tapes)).
    { destruct tapes; [constructor | inversion Ht; assumption]. }
    rewrite Hworker. unfold bind at 1.
    assert (Hconn : exists w1,
               newConnection (mkWorld (hd [] tapes) [] []) = Ok (true, w1) /\
               errs w1 = [] /\ allNil (tape w1)).
    { unfold newConnection, bind.
      destruct (@outcome_allNil (mkWorld (hd [] tapes) [] []) Hhd)
        as (w1 & Ho & _ & He & Hn).
      rewrite Ho. exists w1. auto. }
    destruct Hconn as (w1 & Hc & He1 & Hn1). rewrite Hc.
    unfold bind, connClose, ret.
    destruct (@forEach_quiet (body true) recs w1 H1 Hn1) as (w2 & Hf & He2).
    rewrite Hf. simpl.
    destruct (IH (tl tapes) Htl H2) as (logs & Hs & Hcat).
    rewrite Hs. simpl. exists (errs w2 :: logs). split; [reflexivity|].
    simpl. rewrite Hcat, He2, He1. reflexivity.
Qed.

Lemma Permutation_nil_concat (A : Type) (sched : list nat) (logs : list (list A)) :
  List.concat logs = [] -> interleave sched logs = [].
Proof.
  intros H. pose proof (interleave_Permutation sched logs) as HP.
  rewrite H in HP. apply Permutation_nil. symmetry. exact HP.
Qed.

Lemma bulkDivided_total (fuel : nat) (p : Z) (records : list IngestBulkRecord) :
  len records < 2 ^ 62 -> len records + p - 1 <= MaxInt ->
  len records < Z.of_nat fuel ->
  exists divided, bulkDivided fuel p records = Ok divided /\
                  List.concat divided = records.
Proof.
  intros Hlen Hov Hfuel. unfold bulkDivided.
  pose proof (clampRoutines_pos p) as Hc.
  assert (Hov' : len records + clampRoutines p - 1 <= MaxInt).
  { unfold clampRoutines. destruct (Z.leb_spec p 0); unfold MaxInt in *; lia. }
  destruct (@divideIngestBulkRecords_spec _ fuel records (clampRoutines p)
              Hc Hlen Hov' Hfuel) as (parts & Hrun & Hcat & _).
  exists parts. auto.
Qed.

(** X18. When every call on the transport succeeds, [BulkPop] returns the
    empty error list, for every record list (of fewer than [2^62] records),
    every parallelism (with [len(records) + p - 1] within [int]) and every
    text: nothing is checked or escaped on the way. *)
Theorem BulkPop_all_ok
        (d : driver) (fuel : nat) (sched : list nat)
        (tapes : list (list (option error)))
        (collection bucket : gostring) (p : Z)
        (records : list IngestBulkRecord)
        (Hlen : len records < 2 ^ 62) (Hov : len records + p - 1 <= MaxInt)
        (Hfuel : len records < Z.of_nat fuel)
        (Hok : Forall allNil tapes) :
  BulkPop d fuel sched tapes collection bucket p records = Ok [].
Proof.
  unfold BulkPop.
  destruct (@bulkDivided_total fuel p records Hlen Hov Hfuel)
    as (divided & Hd & Hcat).
  rewrite Hd. simpl.
  destruct (@spawn_quiet (bulkPopWorker d collection bucket)
                         (bulkPopRecord d collection bucket)
                         (fun recs => eq_refl) divided tapes Hok)
    as (logs & Hs & Hnil).
  - apply Forall_forall. intros recs _. apply Forall_forall. intros rec _.
    apply bulkPopRecord_quiet.
  - rewrite Hs. simpl. rewrite Permutation_nil_concat by exact Hnil.
    reflexivity.
Qed.

Lemma BulkPop_all_ok_witness :
  Forall allNil [[None; None; None]; []] /\
  BulkPop (mkDriver 20000 Panic) 4 [1%nat] [[None; None; None]; []]
          (str "c") (str "b") 2 [recA; recB; recC] = Ok [].
Proof.
  assert (H : Forall allNil [[None; None; None]; []]).
  { repeat constructor. }
  split; [exact H|].
  apply BulkPop_all_ok.
  - vm_compute; reflexivity.
  - vm_compute; discriminate.
  - vm_compute; reflexivity.
  - exact H.
Defined.



(* ================================================================== *)
(** * [Count] *)

Lemma digitVal_digit (k : Z) :
  0 <= k <= 9 -> digitVal (ascii_of_nat (Z.to_nat (48 + k))) = Some k.
Proof.
  intros Hk.
  assert (k = 0 \/ k = 1 \/ k = 2 \/ k = 3 \/ k = 4 \/ k = 5 \/ k = 6 \/
          k = 7 \/ k = 8 \/ k = 9) as Hcases by lia.
  repeat (destruct Hcases as [->|Hcases]; [reflexivity|]).
  subst k. reflexivity.
Qed.

Lemma parseUint_snoc (a : gostring) (c : ascii) :
  forall acc : Z,
    parseUint acc (a ++ [c]) =
    match parseUint acc a with
    | Digits v => match digitVal c with
                  | Some d => if MaxUint <? v * 10 + d then OutOfRange
                              else Digits (v * 10 + d)
                  | None => BadSyntax
                  end
    | BadSyntax => BadSyntax
    | OutOfRange => OutOfRange
    end.
Proof.
  induction a as [|x a IH]; intros acc; simpl.
  - destruct (digitVal c) as [d|]; [|reflexivity].
    destruct (MaxUint <? acc * 10 + d); reflexivity.
  - destruct (digitVal x) as [d|]; [|reflexivity].
    destruct (MaxUint <? acc * 10 + d); [reflexivity | apply IH].
Qed.

Lemma parseUint_decimal (fuel : nat) :
  forall n : Z, 0 <= n < 10 ^ Z.of_nat fuel -> n <= MaxUint ->
                parseUint 0 (decimal fuel n) = Digits n.
Proof.
  induction fuel as [|fuel IH]; intros n Hn Hmax.
  - simpl in *. f_equal. lia.
  - change (decimal (S fuel) n)
      with ((if n <? 10 then [] else decimal fuel (n / 10))
              ++ [ascii_of_nat (Z.to_nat (48 + n mod 10))]).
    rewrite parseUint_snoc.
    pose proof (Z.mod_pos_bound n 10 ltac:(lia)) as Hm.
    pose proof (Z.div_mod n 10 ltac:(lia)) as Hd.
    rewrite digitVal_digit by lia.
    destruct (Z.ltb_spec n 10).
    + simpl parseUint. cbv iota.
      rewrite Z.mod_small by lia.
      destruct (Z.ltb_spec MaxUint (0 * 10 + n)); [lia|]. f_equal; lia.
    + rewrite IH.
      * destruct (Z.ltb_spec MaxUint (n / 10 * 10 + n mod 10)); [lia|].
        f_equal; lia.
      * split; [apply Z.div_pos; lia|].
        apply Z.div_lt_upper_bound; [lia|].
        rewrite Nat2Z.inj_succ, Z.pow_succ_r in Hn by lia. lia.
      * lia.
Qed.

Lemma decimal_not_nil (fuel : nat) (n : Z) : decimal (S fuel) n <> [].
Proof.
  change (decimal (S fuel) n)
    with ((if n <? 10 then [] else decimal fuel (n / 10))
            ++ [ascii_of_nat (Z.to_nat (48 + n mod 10))]).
  intros H. apply app_eq_nil in H. destruct H. discriminate.
Qed.

Lemma Atoi_digits (s : gostring) (n : Z) :
  s <> [] -> parseUint 0 s = Digits n -> 0 <= n <= MaxInt ->
  Atoi s = (n, None).
Proof.
  intros Hne Hp Hn. destruct s as [|c t]; [congruence|].
  unfold Atoi.
  assert (Hd : digitVal c <> None).
  { simpl in Hp. destruct (digitVal c); [discriminate | discriminate Hp]. }
  destruct (Ascii.eqb_spec c plusSign) as [->|_];
    [exfalso; apply Hd; reflexivity|].
  destruct (Ascii.eqb_spec c minusSign) as [->|_];
    [exfalso; apply Hd; reflexivity|].
  cbv beta iota zeta delta [orb]. rewrite Hp.
  cbv beta iota delta [negb andb].
  destruct (Z.leb_spec (2 ^ 63) n); [unfold MaxInt in Hn; lia|].
  reflexivity.
Qed.

Lemma sliceFrom_app (A : Type) (pre s : list A) :
  sliceFrom (pre ++ s) (len pre) = Ok s.
Proof.
  unfold sliceFrom, slice. rewrite len_app.
  pose proof (len_nonneg pre). pose proof (len_nonneg s).
  destruct (Z.leb_spec 0 (len pre)); [|lia].
  destruct (Z.leb_spec (len pre) (len pre + len s)); [|lia].
  destruct (Z.leb_spec (len pre + len s) (len pre + len s)); [|lia].
  simpl. f_equal. unfold len.
  replace (Z.to_nat (Z.of_nat (List.length pre))) with (List.length pre) by lia.
  rewrite skipn_app, skipn_all, Nat.sub_diag. simpl.
  apply firstn_all2. lia.
Qed.

(** X20. When the write and the read succeed and the response is seven
    bytes followed by the decimal numeral of [n], with [0 <= n <= MaxInt],
    [Count] returns [n] and no error; the seven bytes are dropped without a
    look at them. *)
Theorem Count_result
        (pre : gostring) (n : Z)
        (Hpre : len pre = 7) (Hn : 0 <= n <= MaxInt) :
  Count None (pre ++ decimal 19 n) None = Ok (n, None).
Proof.
  unfold Count. rewrite <- Hpre. rewrite sliceFrom_app.
  cbv beta iota delta [rbind].
  f_equal. apply Atoi_digits.
  - apply decimal_not_nil.
  - apply parseUint_decimal; unfold MaxInt, MaxUint in *;
      change (Z.of_nat 19) with 19; lia.
  - exact Hn.
Qed.

Lemma Count_result_witness :
  len (str "RESULT ") = 7 /\ 0 <= 1204 <= MaxInt /\
  Count None (str "RESULT 1204") None = Ok (1204, None).
Proof.
  split; [reflexivity|]. split; [vm_compute; split; discriminate|].
  apply (@Count_result (str "RESULT ") 1204).
  - reflexivity.
  - vm_compute; split; discriminate.
Defined.

(** X21. [Count] slices the response at index seven without a test of its
    length: when the write and the read succeed and the response has fewer
    than seven bytes, [Count] panics. *)
Theorem Count_short_response
        (r : gostring) (Hshort : len r < 7) :
  Count None r None = Panic.
Proof.
  unfold Count, sliceFrom, slice.
  destruct (Z.leb_spec 7 (len r)); [lia|].
  simpl. reflexivity.
Qed.

Lemma Count_short_response_witness :
  len (str "PONG") < 7 /\ Count None (str "PONG") None = Panic.
Proof.
  split; [reflexivity|]. apply Count_short_response. reflexivity.
Defined.
